(** * Decision Helper: the live-voice core of [App.tsx]

    A shallow embedding of the audio codec helpers ([encode], [decode],
    [decodeAudioData], [createBlob]), of the live-session handlers
    ([onmessage], [onended], [stopListening], [toggleVoiceInput]) and of
    [saveToHistory], with the properties the specification states about
    them. *)

From Stdlib Require Import ZArith NArith QArith Qround Qminmax List Bool Lia.
From Stdlib Require Import Ascii String.
From Stdlib.Strings Require Import Byte.
Import ListNotations.

Set Implicit Arguments.

(** ** Section 1: the platform's Base64 ([btoa] and [atob])

    [encode] and [decode] are thin loops around the browser's [btoa] and
    [atob].  Both are modelled after the WHATWG definitions: [btoa] is the
    RFC 4648 encoder with padding, [atob] is the forgiving-base64 decoder.
    A JavaScript binary string (every code unit below 256) is a list of
    [ascii]; a [Uint8Array] is a list of [byte]. *)

Module Base64.

Local Open Scope list_scope.
Local Open Scope N_scope.

Definition alphabet : list ascii :=
  list_ascii_of_string
    "ABCDEFGHIJKLMNOPQRSTUVWXYZabcdefghijklmnopqrstuvwxyz0123456789+/".

Definition pad_char : ascii := "="%char.

(** The character of a 6-bit value. *)
Definition enc6 (n : N) : ascii := nth (N.to_nat n) alphabet pad_char.

Fixpoint index_of (c : ascii) (l : list ascii) : option N :=
  match l with
  | [] => None
  | x :: r => if Ascii.eqb c x then Some 0
              else option_map N.succ (index_of c r)
  end.

(** The 6-bit value of a character, when it is in the alphabet. *)
Definition dec6 (c : ascii) : option N := index_of c alphabet.

Definition code (c : ascii) : N := N_of_ascii c.

(** Three octets make four sextets; a final group of one or two octets
    makes two or three, the last one filled with zero bits. *)
Fixpoint sextets (s : list ascii) : list N :=
  match s with
  | [] => []
  | [x] =>
      [ N.shiftr (code x) 2;
        N.shiftl (N.land (code x) 3) 4 ]
  | [x; y] =>
      [ N.shiftr (code x) 2;
        N.lor (N.shiftl (N.land (code x) 3) 4) (N.shiftr (code y) 4);
        N.shiftl (N.land (code y) 15) 2 ]
  | x :: y :: z :: rest =>
      N.shiftr (code x) 2
      :: N.lor (N.shiftl (N.land (code x) 3) 4) (N.shiftr (code y) 4)
      :: N.lor (N.shiftl (N.land (code y) 15) 2) (N.shiftr (code z) 6)
      :: N.land (code z) 63
      :: sextets rest
  end.

Definition padding (len : nat) : list ascii :=
  match (len mod 3)%nat with
  | 1%nat => [pad_char; pad_char]
  | 2%nat => [pad_char]
  | _ => []
  end.

Definition btoa_list (s : list ascii) : list ascii :=
  map enc6 (sextets s) ++ padding (List.length s).

(** [btoa] on a binary string.  The exception it raises on a code unit
    above 255 cannot occur here: the type has no such character. *)
Definition btoa (s : string) : string :=
  string_of_list_ascii (btoa_list (list_ascii_of_string s)).

(** ASCII whitespace: TAB, LF, FF, CR and SPACE. *)
Definition is_ascii_whitespace (c : ascii) : bool :=
  let n := code c in
  (n =? 9) || (n =? 10) || (n =? 12) || (n =? 13) || (n =? 32).

(** Removes one or two trailing [=]. *)
Definition strip_padding (l : list ascii) : list ascii :=
  match rev l with
  | p :: q :: r =>
      if Ascii.eqb p pad_char
      then if Ascii.eqb q pad_char then rev r else rev (q :: r)
      else l
  | [p] => if Ascii.eqb p pad_char then [] else l
  | [] => l
  end.

Fixpoint all_dec6 (l : list ascii) : option (list N) :=
  match l with
  | [] => Some []
  | c :: r =>
      match dec6 c, all_dec6 r with
      | Some n, Some ns => Some (n :: ns)
      | _, _ => None
      end
  end.

Definition octet (n : N) : ascii := ascii_of_N (N.land n 255).

(** Four sextets give three octets; a remainder of three sextets gives two
    octets and drops two bits, a remainder of two gives one octet and drops
    four bits. *)
Fixpoint octets (l : list N) : list ascii :=
  match l with
  | a :: b :: c :: d :: rest =>
      octet (N.lor (N.shiftl a 2) (N.shiftr b 4))
      :: octet (N.lor (N.shiftl b 4) (N.shiftr c 2))
      :: octet (N.lor (N.shiftl c 6) d)
      :: octets rest
  | [a; b; c] =>
      [ octet (N.lor (N.shiftl a 2) (N.shiftr b 4));
        octet (N.lor (N.shiftl b 4) (N.shiftr c 2)) ]
  | [a; b] =>
      [ octet (N.lor (N.shiftl a 2) (N.shiftr b 4)) ]
  | _ => []
  end.

(** Forgiving-base64 decode; [None] is the [InvalidCharacterError]. *)
Definition atob_list (data : list ascii) : option (list ascii) :=
  let d1 := filter (fun c => negb (is_ascii_whitespace c)) data in
  let d2 := if (List.length d1 mod 4 =? 0)%nat then strip_padding d1 else d1 in
  if (List.length d2 mod 4 =? 1)%nat then None
  else option_map octets (all_dec6 d2).

Definition atob (data : string) : option string :=
  option_map string_of_list_ascii (atob_list (list_ascii_of_string data)).

(** The numbers below [n], for exhaustive checks of the bit arithmetic. *)
Definition below (n : nat) : list N := map N.of_nat (seq 0 n).

Definition option_N_eqb (a b : option N) : bool :=
  match a, b with
  | Some x, Some y => x =? y
  | None, None => true
  | _, _ => false
  end.

End Base64.


(** ** Section 2: JavaScript numbers and typed arrays *)

(** A JavaScript number.  Every finite value the codec meets is a rational:
    a 16-bit integer divided by 32768 and a 32-bit float multiplied by 32768
    are computed without rounding, so [Num q] carries the exact value. *)
Inductive JsNumber : Type :=
| Num (q : Q)
| NaN
| PosInf
| NegInf.

Inductive JsError : Type :=
| TypeError
| RangeError
| NotSupportedError
| InvalidCharacterError
| NotAllowedError
| NotFoundError.

Module TypedArray.

Local Open Scope Z_scope.

(** [a[i] = v] on a typed array: a write past the end is ignored. *)
Fixpoint array_set {A : Type} (i : nat) (v : A) (a : list A) : list A :=
  match a, i with
  | [], _ => []
  | _ :: r, O => v :: r
  | x :: r, S j => x :: array_set j v r
  end.

(** [for (let i = 0; i < n; i++) a[i] = f(i)]. *)
Definition fill {A : Type} (n : nat) (f : nat -> A) (a : list A) : list A :=
  fold_left (fun acc i => array_set i (f i) acc) (seq 0 n) a.

(** Truncation toward zero, the first step of every integer conversion. *)
Definition Qtrunc (q : Q) : Z := Z.quot (Qnum q) (Z.pos (Qden q)).

(** A signed 16-bit reading: reduction modulo 2^16, the upper half of the
    range standing for the negative numbers. *)
Definition wrap16 (int : Z) : Z :=
  let int16bit := int mod 65536 in
  if 32768 <=? int16bit then int16bit - 65536 else int16bit.

(** ECMAScript [ToInt16]: non-finite values give 0; a finite value is
    truncated, reduced modulo 2^16 and read as a signed 16-bit integer. *)
Definition to_int16 (x : JsNumber) : Z :=
  match x with
  | Num q => wrap16 (Qtrunc q)
  | _ => 0
  end.

(** WebIDL [unsigned long]: non-finite values give 0; a finite value is
    truncated and reduced modulo 2^32. *)
Definition to_uint32 (x : JsNumber) : Z :=
  match x with
  | Num q => Qtrunc q mod 4294967296
  | _ => 0
  end.

Definition byte_to_Z (b : byte) : Z := Z.of_N (Byte.to_N b).

Definition byte_of_Z (z : Z) : byte :=
  match Byte.of_N (Z.to_N (z mod 256)) with
  | Some b => b
  | None => x00
  end.

(** [new Int16Array(data.buffer)], for an array that owns its buffer: the
    bytes read two by two, little-endian, as signed 16-bit integers.  It
    raises [RangeError] when the byte length is odd. *)
Fixpoint int16_view (bytes : list byte) : JsError + list Z :=
  match bytes with
  | [] => inr []
  | [_] => inl RangeError
  | lo :: hi :: rest =>
      match int16_view rest with
      | inl e => inl e
      | inr r => inr (wrap16 (byte_to_Z lo + 256 * byte_to_Z hi) :: r)
      end
  end.

(** [new Uint8Array(int16.buffer)]: each element as two bytes, low first. *)
Definition uint8_view (int16 : list Z) : list byte :=
  flat_map (fun z => [byte_of_Z z; byte_of_Z (Z.shiftr z 8)]) int16.

End TypedArray.

(** ** Section 3: the codec helpers of [App.tsx] *)

Module Codec.

Import TypedArray.
Local Open Scope Z_scope.

(** [String.fromCharCode(bytes[i])], a one-character string. *)
Definition fromCharCode (b : byte) : string := String (ascii_of_byte b) EmptyString.

(** [encode], lines 9-16. *)
Definition encode (bytes : list byte) : string :=
  let binary := fold_left (fun acc b => (acc ++ fromCharCode b)%string) bytes EmptyString in
  Base64.btoa binary.

(** [binaryString.charCodeAt(i)] stored in a [Uint8Array]; past the end the
    code is [NaN], stored as 0. *)
Definition charCodeAt (s : string) (i : nat) : byte :=
  match String.get i s with
  | Some c => byte_of_ascii c
  | None => x00
  end.

(** [decode], lines 18-26; [inl] when [atob] raises. *)
Definition decode (base64 : string) : JsError + list byte :=
  match Base64.atob base64 with
  | None => inl InvalidCharacterError
  | Some binaryString =>
      let len := String.length binaryString in
      let bytes := repeat x00 len in
      inr (fill len (charCodeAt binaryString) bytes)
  end.

(** An [AudioBuffer]: [frames] sample-frames for each channel. *)
Record AudioBuffer : Type := {
  frames : nat;
  sampleRate : positive;
  channels : list (list JsNumber)
}.

(** [buffer.duration], in seconds. *)
Definition duration (b : AudioBuffer) : Q := Z.of_nat (frames b) # sampleRate b.

(** [ctx.createBuffer(numChannels, frameCount, sampleRate)] of the Web Audio
    API: the frame count is converted to an unsigned long, a channel count
    or a length of zero raises [NotSupportedError], and the new buffer is
    silent.  The upper limits a browser puts on the channel count and on
    the sample rate are left out; the application asks for one channel at
    24000 Hz. *)
Definition createBuffer (numChannels : nat) (frameCount : JsNumber)
    (rate : positive) : JsError + AudioBuffer :=
  let len := Z.to_nat (to_uint32 frameCount) in
  if (numChannels =? 0)%nat || (len =? 0)%nat then inl NotSupportedError
  else inr {| frames := len; sampleRate := rate;
              channels := repeat (repeat (Num 0) len) numChannels |}.

(** [dataInt16.length / numChannels] as a JavaScript number. *)
Definition js_div_nat (a b : nat) : JsNumber :=
  match b with
  | O => match a with O => NaN | _ => PosInf end
  | S _ => Num (Z.of_nat a # Pos.of_nat b)
  end.

(** The number of turns of [for (let i = 0; i < frameCount; i++)]; the loop
    is only reached with a finite [frameCount]. *)
Definition turns (frameCount : JsNumber) : nat :=
  match frameCount with
  | Num q => Z.to_nat (Qceiling q)
  | _ => O
  end.

(** [dataInt16[k] / 32768.0]; a read past the end is [undefined]. *)
Definition sample_at (dataInt16 : list Z) (k : nat) : JsNumber :=
  match nth_error dataInt16 k with
  | Some x => Num (x # 32768)
  | None => NaN
  end.

(** [decodeAudioData], lines 28-45. *)
Definition decodeAudioData (data : list byte) (rate : positive)
    (numChannels : nat) : JsError + AudioBuffer :=
  match int16_view data with
  | inl e => inl e
  | inr dataInt16 =>
      let frameCount := js_div_nat (List.length dataInt16) numChannels in
      match createBuffer numChannels frameCount rate with
      | inl e => inl e
      | inr buffer =>
          let write channel channelData :=
            fill (turns frameCount)
                 (fun i => sample_at dataInt16 (i * numChannels + channel))
                 channelData in
          let chans :=
            fold_left
              (fun chs channel =>
                 match nth_error chs channel with
                 | Some channelData => array_set channel (write channel channelData) chs
                 | None => chs
                 end)
              (seq 0 numChannels) (channels buffer) in
          inr {| frames := frames buffer; sampleRate := sampleRate buffer;
                 channels := chans |}
      end
  end.

(** [data[i] * 32768]. *)
Definition scale (x : JsNumber) : JsNumber :=
  match x with
  | Num q => Num (q * 32768)
  | other => other
  end.

(** The sample loop of [createBlob], lines 48-52: each product is stored in
    an [Int16Array], which converts it with [ToInt16]. *)
Definition floatToPcm16 (data : list JsNumber) : list Z :=
  let l := List.length data in
  let int16 := repeat 0 l in
  fill l (fun i => to_int16 (scale (nth i data NaN))) int16.

Record Blob : Type := { data : string; mimeType : string }.

(** [createBlob], lines 47-57. *)
Definition createBlob (samples : list JsNumber) : Blob :=
  {| data := encode (uint8_view (floatToPcm16 samples));
     mimeType := "audio/pcm;rate=16000" |}.

End Codec.


(** ** Section 4: the live session

    The refs and the React state the handlers read and write, the effects
    they have on the devices and on the session, and the handlers
    themselves.  A handler is a function of the state that returns its
    outcome (completed or raised), the new state and the effects it had,
    in order. *)

Module Live.

Import Codec.
Local Open Scope Q_scope.

Inductive LiveStatus : Type := IDLE | LISTENING | THINKING | SPEAKING.

(** Handles of platform objects. *)
Definition Track := nat.
Definition Context := nat.
Definition Source := nat.
Definition Session := nat.

Record State : Type := {
  isListening : bool;
  liveStatus : LiveStatus;
  error : option string;
  inputAudioContextRef : option Context;
  outputAudioContextRef : option Context;
  nextStartTimeRef : Q;
  (** a JavaScript [Set]: no duplicates, iterated in insertion order *)
  sourcesRef : list Source;
  (** the tracks of the captured [MediaStream] *)
  streamRef : option (list Track);
  sessionRef : option Session;
  (** the next handle the platform hands out *)
  fresh : nat
}.

Inductive Effect : Type :=
| TrackStop (t : Track)
| ContextClose (c : Context)
| SourceStart (s : Source) (when : Q) (buffer : AudioBuffer)
| SourceStop (s : Source)
| SessionClose (s : Session).

(** *** The handler monad *)

Definition M (A : Type) : Type := State -> (JsError + A) * State * list Effect.

Definition ret {A : Type} (a : A) : M A := fun st => (inr a, st, []).

Definition bind {A B : Type} (m : M A) (f : A -> M B) : M B :=
  fun st =>
    match m st with
    | (inl e, st1, t1) => (inl e, st1, t1)
    | (inr a, st1, t1) =>
        let '(r, st2, t2) := f a st1 in (r, st2, (t1 ++ t2)%list)
    end.

Definition throw {A : Type} (e : JsError) : M A := fun st => (inl e, st, []).

Definition try_catch {A : Type} (m : M A) (h : JsError -> M A) : M A :=
  fun st =>
    match m st with
    | (inl e, st1, t1) =>
        let '(r, st2, t2) := h e st1 in (r, st2, (t1 ++ t2)%list)
    | ok => ok
    end.

Definition get : M State := fun st => (inr st, st, []).
Definition modify (f : State -> State) : M unit := fun st => (inr tt, f st, []).
Definition emit (e : Effect) : M unit := fun st => (inr tt, st, [e]).

(** A value that raises or not, lifted into a handler. *)
Definition lift {A : Type} (r : JsError + A) : M A :=
  match r with
  | inl e => throw e
  | inr a => ret a
  end.

Notation "x <- m ;; k" := (bind m (fun x => k))
  (at level 61, m at next level, right associativity).
Notation "m ;; k" := (bind m (fun _ => k))
  (at level 61, right associativity).

Definition when (b : bool) (m : M unit) : M unit := if b then m else ret tt.

(** [for (const x of xs) body(x)]. *)
Fixpoint for_each {A : Type} (xs : list A) (body : A -> M unit) : M unit :=
  match xs with
  | [] => ret tt
  | x :: r => body x ;; for_each r body
  end.

(** *** Setters *)

Definition with_isListening (v : bool) (st : State) : State :=
  {| isListening := v; liveStatus := liveStatus st; error := error st;
     inputAudioContextRef := inputAudioContextRef st;
     outputAudioContextRef := outputAudioContextRef st;
     nextStartTimeRef := nextStartTimeRef st; sourcesRef := sourcesRef st;
     streamRef := streamRef st; sessionRef := sessionRef st;
     fresh := fresh st |}.

Definition setIsListening (v : bool) : M unit := modify (with_isListening v).

Definition with_liveStatus (v : LiveStatus) (st : State) : State :=
  {| isListening := isListening st; liveStatus := v; error := error st;
     inputAudioContextRef := inputAudioContextRef st;
     outputAudioContextRef := outputAudioContextRef st;
     nextStartTimeRef := nextStartTimeRef st; sourcesRef := sourcesRef st;
     streamRef := streamRef st; sessionRef := sessionRef st;
     fresh := fresh st |}.

Definition setLiveStatus (v : LiveStatus) : M unit := modify (with_liveStatus v).

Definition with_error (v : option string) (st : State) : State :=
  {| isListening := isListening st; liveStatus := liveStatus st; error := v;
     inputAudioContextRef := inputAudioContextRef st;
     outputAudioContextRef := outputAudioContextRef st;
     nextStartTimeRef := nextStartTimeRef st; sourcesRef := sourcesRef st;
     streamRef := streamRef st; sessionRef := sessionRef st;
     fresh := fresh st |}.

Definition setError (v : option string) : M unit := modify (with_error v).

Definition with_inputAudioContextRef (v : option Context) (st : State) : State :=
  {| isListening := isListening st; liveStatus := liveStatus st;
     error := error st; inputAudioContextRef := v;
     outputAudioContextRef := outputAudioContextRef st;
     nextStartTimeRef := nextStartTimeRef st; sourcesRef := sourcesRef st;
     streamRef := streamRef st; sessionRef := sessionRef st;
     fresh := fresh st |}.

Definition set_inputAudioContextRef (v : option Context) : M unit := modify (with_inputAudioContextRef v).

Definition with_outputAudioContextRef (v : option Context) (st : State) : State :=
  {| isListening := isListening st; liveStatus := liveStatus st;
     error := error st; inputAudioContextRef := inputAudioContextRef st;
     outputAudioContextRef := v;
     nextStartTimeRef := nextStartTimeRef st; sourcesRef := sourcesRef st;
     streamRef := streamRef st; sessionRef := sessionRef st;
     fresh := fresh st |}.

Definition set_outputAudioContextRef (v : option Context) : M unit := modify (with_outputAudioContextRef v).

Definition with_nextStartTimeRef (v : Q) (st : State) : State :=
  {| isListening := isListening st; liveStatus := liveStatus st;
     error := error st; inputAudioContextRef := inputAudioContextRef st;
     outputAudioContextRef := outputAudioContextRef st;
     nextStartTimeRef := v; sourcesRef := sourcesRef st;
     streamRef := streamRef st; sessionRef := sessionRef st;
     fresh := fresh st |}.

Definition set_nextStartTimeRef (v : Q) : M unit := modify (with_nextStartTimeRef v).

Definition with_sourcesRef (v : list Source) (st : State) : State :=
  {| isListening := isListening st; liveStatus := liveStatus st;
     error := error st; inputAudioContextRef := inputAudioContextRef st;
     outputAudioContextRef := outputAudioContextRef st;
     nextStartTimeRef := nextStartTimeRef st; sourcesRef := v;
     streamRef := streamRef st; sessionRef := sessionRef st;
     fresh := fresh st |}.

Definition set_sourcesRef (v : list Source) : M unit := modify (with_sourcesRef v).

Definition with_streamRef (v : option (list Track)) (st : State) : State :=
  {| isListening := isListening st; liveStatus := liveStatus st;
     error := error st; inputAudioContextRef := inputAudioContextRef st;
     outputAudioContextRef := outputAudioContextRef st;
     nextStartTimeRef := nextStartTimeRef st; sourcesRef := sourcesRef st;
     streamRef := v; sessionRef := sessionRef st;
     fresh := fresh st |}.

Definition set_streamRef (v : option (list Track)) : M unit := modify (with_streamRef v).

Definition with_sessionRef (v : option Session) (st : State) : State :=
  {| isListening := isListening st; liveStatus := liveStatus st;
     error := error st; inputAudioContextRef := inputAudioContextRef st;
     outputAudioContextRef := outputAudioContextRef st;
     nextStartTimeRef := nextStartTimeRef st; sourcesRef := sourcesRef st;
     streamRef := streamRef st; sessionRef := v;
     fresh := fresh st |}.

Definition set_sessionRef (v : option Session) : M unit := modify (with_sessionRef v).

(** A new platform object: the next unused handle. *)
Definition new_handle : M nat :=
  fun st =>
    (inr (fresh st),
     {| isListening := isListening st; liveStatus := liveStatus st;
        error := error st; inputAudioContextRef := inputAudioContextRef st;
        outputAudioContextRef := outputAudioContextRef st;
        nextStartTimeRef := nextStartTimeRef st; sourcesRef := sourcesRef st;
        streamRef := streamRef st; sessionRef := sessionRef st;
        fresh := S (fresh st) |},
     []).

(** *** Messages of the live server *)

Record InlineData : Type := { inline_data : option string }.
Record Part : Type := { inlineData : option InlineData }.
Record Content : Type := { parts : option (list Part) }.

Record ServerContent : Type := {
  modelTurn : option Content;
  turnComplete : bool;
  interrupted : bool
}.

Record LiveServerMessage : Type := { serverContent : option ServerContent }.

Definition has_modelTurn (m : LiveServerMessage) : bool :=
  match serverContent m with
  | Some sc => match modelTurn sc with Some _ => true | None => false end
  | None => false
  end.

Definition has_turnComplete (m : LiveServerMessage) : bool :=
  match serverContent m with
  | Some sc => turnComplete sc
  | None => false
  end.

Definition has_interrupted (m : LiveServerMessage) : bool :=
  match serverContent m with
  | Some sc => interrupted sc
  | None => false
  end.

(** [message.serverContent?.modelTurn?.parts[0]?.inlineData?.data], line
    321.  The index [parts[0]] is not guarded: a model turn without [parts]
    raises [TypeError]. *)
Definition base64Audio (m : LiveServerMessage) : JsError + option string :=
  match serverContent m with
  | None => inr None
  | Some sc =>
      match modelTurn sc with
      | None => inr None
      | Some content =>
          match parts content with
          | None => inl TypeError
          | Some ps =>
              match ps with
              | [] => inr None
              | part :: _ =>
                  match inlineData part with
                  | None => inr None
                  | Some d => inr (inline_data d)
                  end
              end
          end
      end
  end.

(** Truthiness of an optional string: defined and not empty. *)
Definition truthy (s : option string) : option string :=
  match s with
  | Some EmptyString => None
  | other => other
  end.

(** [decodeAudioData(decode(base64Audio), outAudioCtx, 24000, 1)]. *)
Definition audio_chunk (b64 : string) : JsError + AudioBuffer :=
  match decode b64 with
  | inl e => inl e
  | inr bytes => decodeAudioData bytes 24000 1
  end.

(** [Set.prototype.add] and [Set.prototype.delete]. *)
Definition set_add (s : Source) (l : list Source) : list Source :=
  if existsb (Nat.eqb s) l then l else (l ++ [s])%list.

Definition set_delete (s : Source) (l : list Source) : list Source :=
  filter (fun x => negb (Nat.eqb s x)) l.

(** Stops every source of the active set, clears the set and resets the
    cursor: lines 266-270 and 338-342.  A failing [stop] is swallowed. *)
Definition flush_sources : M unit :=
  st <- get ;;
  for_each (sourcesRef st)
    (fun s => try_catch (emit (SourceStop s)) (fun _ => ret tt)) ;;
  set_sourcesRef [] ;;
  set_nextStartTimeRef 0.

(** *** The handlers *)

(** [onmessage], lines 314-345, in its three blocks; [now] is
    [outAudioCtx.currentTime].  The handler is one step: it suspends only
    at the [await] of [decodeAudioData], which has nothing to wait for, and
    resumes before another event is delivered.

    Lines 315-319: the status follows the kind of the message. *)
Definition announce (message : LiveServerMessage) : M unit :=
  if has_modelTurn message then setLiveStatus SPEAKING
  else if has_turnComplete message then setLiveStatus LISTENING
  else ret tt.

(** Lines 321-335: the audio chunk, when there is one, is decoded and
    scheduled at the cursor. *)
Definition play_audio (now : Q) (message : LiveServerMessage) : M unit :=
  base64Audio <- lift (base64Audio message) ;;
  match truthy base64Audio with
  | Some b64 =>
      st <- get ;;
      set_nextStartTimeRef (Qmax (nextStartTimeRef st) now) ;;
      audioBuffer <- lift (audio_chunk b64) ;;
      source <- new_handle ;;
      st <- get ;;
      emit (SourceStart source (nextStartTimeRef st) audioBuffer) ;;
      set_nextStartTimeRef (nextStartTimeRef st + duration audioBuffer) ;;
      set_sourcesRef (set_add source (sourcesRef st))
  | None => ret tt
  end.

(** Lines 337-344: an interruption flushes the playback. *)
Definition handle_interrupted (message : LiveServerMessage) : M unit :=
  when (has_interrupted message)
    (flush_sources ;;
     setLiveStatus LISTENING).

Definition onmessage (now : Q) (message : LiveServerMessage) : M unit :=
  announce message ;;
  play_audio now message ;;
  handle_interrupted message.

(** [source.onended], lines 331-334. *)
Definition onended (source : Source) : M unit :=
  st <- get ;;
  set_sourcesRef (set_delete source (sourcesRef st)) ;;
  st <- get ;;
  when (Nat.eqb (List.length (sourcesRef st)) 0) (setLiveStatus LISTENING).

(** [stopListening], lines 251-275.  Closing the session is registered on
    the session promise; the effect stands for that request. *)
Definition stopListening : M unit :=
  setIsListening false ;;
  setLiveStatus IDLE ;;
  st <- get ;;
  match streamRef st with
  | Some tracks =>
      for_each tracks (fun track => emit (TrackStop track)) ;;
      set_streamRef None
  | None => ret tt
  end ;;
  st <- get ;;
  match inputAudioContextRef st with
  | Some ctx => emit (ContextClose ctx) ;; set_inputAudioContextRef None
  | None => ret tt
  end ;;
  st <- get ;;
  match outputAudioContextRef st with
  | Some ctx => emit (ContextClose ctx) ;; set_outputAudioContextRef None
  | None => ret tt
  end ;;
  flush_sources ;;
  st <- get ;;
  match sessionRef st with
  | Some session => emit (SessionClose session) ;; set_sessionRef None
  | None => ret tt
  end.

(** [toggleVoiceInput], lines 277-372.  [getUserMedia] is the answer of
    [navigator.mediaDevices.getUserMedia]: the tracks of the captured
    stream, or the error it rejects with ([NotAllowedError] when the user
    declines, [NotFoundError] when there is no input device).  The two
    audio contexts and the connection are new platform objects; the
    callbacks given to [ai.live.connect] are the handlers below. *)
Definition toggleVoiceInput (getUserMedia : JsError + list Track) : M unit :=
  st <- get ;;
  if isListening st then stopListening
  else
    try_catch
      (setIsListening true ;;
       setLiveStatus LISTENING ;;
       setError None ;;
       stream <- lift getUserMedia ;;
       set_streamRef (Some stream) ;;
       inAudioCtx <- new_handle ;;
       outAudioCtx <- new_handle ;;
       set_inputAudioContextRef (Some inAudioCtx) ;;
       set_outputAudioContextRef (Some outAudioCtx) ;;
       sessionPromise <- new_handle ;;
       set_sessionRef (Some sessionPromise))
      (fun err =>
         setIsListening false ;;
         setLiveStatus IDLE ;;
         setError (Some "Microphone access is needed."%string)).

(** [onerror], lines 346-349, and [onclose], lines 350-353. *)
Definition onerror : M unit := stopListening.

Definition onclose : M unit :=
  setIsListening false ;;
  setLiveStatus IDLE.

(** *** Event sequences *)

Inductive Event : Type :=
| Toggle (getUserMedia : JsError + list Track)
| Message (now : Q) (m : LiveServerMessage)
| Ended (s : Source)
| TransportError
| Closed.

Definition handler (e : Event) : M unit :=
  match e with
  | Toggle g => toggleVoiceInput g
  | Message now m => onmessage now m
  | Ended s => onended s
  | TransportError => onerror
  | Closed => onclose
  end.

Definition state_after {A : Type} (r : (JsError + A) * State * list Effect) : State :=
  snd (fst r).

Definition effects_of {A : Type} (r : (JsError + A) * State * list Effect) : list Effect :=
  snd r.

Definition outcome_of {A : Type} (r : (JsError + A) * State * list Effect) : JsError + A :=
  fst (fst r).

Definition step (st : State) (e : Event) : State := state_after (handler e st).

Definition run (es : list Event) (st : State) : State := fold_left step es st.

(** The state when the component mounts. *)
Definition initial : State :=
  {| isListening := false; liveStatus := IDLE; error := None;
     inputAudioContextRef := None; outputAudioContextRef := None;
     nextStartTimeRef := 0; sourcesRef := [];
     streamRef := None; sessionRef := None; fresh := O |}.

(** A message that carries one audio chunk and nothing else. *)
Definition audio_message (b64 : string) : LiveServerMessage :=
  {| serverContent := Some
       {| modelTurn := Some {| parts := Some [ {| inlineData := Some {| inline_data := Some b64 |} |} ] |};
          turnComplete := false; interrupted := false |} |}.

Definition turn_complete_message : LiveServerMessage :=
  {| serverContent := Some
       {| modelTurn := None; turnComplete := true; interrupted := false |} |}.

Definition interrupted_message : LiveServerMessage :=
  {| serverContent := Some
       {| modelTurn := None; turnComplete := false; interrupted := true |} |}.

(** One chunk of a single silent sample, as the server sends it. *)
Definition silence : string := "AAA=".

(** The session a successful [toggleVoiceInput] leaves: one captured
    track, both audio contexts and the session promise. *)
Definition started : State := step initial (Toggle (inr [7%nat])).


(** A started session with one buffer scheduled. *)
Definition playing : State := step started (Message 0 (audio_message silence)).

(** The buffer [onmessage] schedules for a message, when its payload is
    present and decodes. *)
Definition chunk_of (m : LiveServerMessage) : option AudioBuffer :=
  match base64Audio m with
  | inl _ => None
  | inr a =>
      match truthy a with
      | None => None
      | Some b64 =>
          match audio_chunk b64 with
          | inr audioBuffer => Some audioBuffer
          | inl _ => None
          end
      end
  end.

Definition option_list {A : Type} (o : option A) : list A :=
  match o with
  | Some a => [a]
  | None => []
  end.

(** The state every call of [stopListening] ends in. *)
Definition stopped (st : State) : State :=
  {| isListening := false; liveStatus := IDLE; error := error st;
     inputAudioContextRef := None; outputAudioContextRef := None;
     nextStartTimeRef := 0; sourcesRef := [];
     streamRef := None; sessionRef := None; fresh := fresh st |}.

(** The effects of [stopListening], in the order of its statements. *)
Definition teardown (st : State) : list Effect :=
  (map TrackStop (List.concat (option_list (streamRef st)))
   ++ map ContextClose (option_list (inputAudioContextRef st))
   ++ map ContextClose (option_list (outputAudioContextRef st))
   ++ map SourceStop (sourcesRef st)
   ++ map SessionClose (option_list (sessionRef st)))%list.

(** The handles of the active set are distinct and were all handed out. *)
Definition distinct_handles (st : State) : Prop :=
  NoDup (sourcesRef st)
  /\ Forall (fun s => (s < fresh st)%nat) (sourcesRef st).

End Live.

(** ** Section 5: the decision history *)

Module History.

Record WeightedItem : Type := {
  item_id : string;
  text : string;
  weight : Z
}.

Inductive Mode : Type := Standard | Quick.
Inductive Outcome : Type := Followed | Ignored | Pending.

(** [Decision] of [types.ts]. *)
Record Decision : Type := {
  id : string;
  dilemma : string;
  pros : list WeightedItem;
  cons : list WeightedItem;
  mode : Mode;
  recommendation : option string;
  explanation : option string;
  confidence : option Q;
  outcome : option Outcome;
  createdAt : Z
}.

(** The [history] state and the entry [decision_helper_history] of
    [localStorage] (the list it holds as JSON, when it is set). *)
Record Store : Type := {
  history : list Decision;
  persisted : option (list Decision)
}.

(** [Array.prototype.slice(0, n)]. *)
Definition slice0 {A : Type} (n : nat) (l : list A) : list A := firstn n l.

(** [saveToHistory], lines 129-133. *)
Definition saveToHistory (newDecision : Decision) (st : Store) : Store :=
  let updated := slice0 50 (newDecision :: history st) in
  {| history := updated; persisted := Some updated |}.

(** Saving a sequence of decisions, the first of the list first. *)
Definition save_all (ds : list Decision) (st : Store) : Store :=
  fold_left (fun acc d => saveToHistory d acc) ds st.

(** [{...d, outcome}]: the decision with its outcome replaced; an outcome
    of [undefined] is an absent one. *)
Definition with_outcome (o : option Outcome) (d : Decision) : Decision :=
  {| id := id d; dilemma := dilemma d; pros := pros d; cons := cons d;
     mode := mode d; recommendation := recommendation d;
     explanation := explanation d; confidence := confidence d;
     outcome := o; createdAt := createdAt d |}.

(** [updateOutcome], lines 135-139. *)
Definition updateOutcome (id' : string) (o : option Outcome) (st : Store) : Store :=
  let updated :=
    map (fun d => if String.eqb (id d) id' then with_outcome o d else d)
        (history st) in
  {| history := updated; persisted := Some updated |}.

(** The first effect of the component, lines 117-119: the history is read
    back from [localStorage] when the entry is there. *)
Definition load_history (st : Store) : Store :=
  match persisted st with
  | Some saved => {| history := saved; persisted := persisted st |}
  | None => st
  end.

(** What the user can do to the history: decide, mark an outcome, reload
    the page. *)
Inductive Action : Type :=
| Save (d : Decision)
| SetOutcome (id' : string) (o : option Outcome)
| Reload.

Definition act (st : Store) (a : Action) : Store :=
  match a with
  | Save d => saveToHistory d st
  | SetOutcome id' o => updateOutcome id' o st
  | Reload => load_history {| history := []; persisted := persisted st |}
  end.

End History.

(** ** Section 6: text

    The form fields are JavaScript strings; a [string] holds the code units
    below 256.  Of those, [trim] removes the white space and line
    terminators: TAB, LF, VT, FF, CR, SPACE and NO-BREAK SPACE. *)

Module Text.

Local Open Scope N_scope.

Definition is_white_space (c : ascii) : bool :=
  let n := N_of_ascii c in
  (n =? 9) || (n =? 10) || (n =? 11) || (n =? 12) || (n =? 13)
  || (n =? 32) || (n =? 160).

Fixpoint trim_start (s : string) : string :=
  match s with
  | EmptyString => EmptyString
  | String c r => if is_white_space c then trim_start r else s
  end.

Fixpoint trim_end (s : string) : string :=
  match s with
  | EmptyString => EmptyString
  | String c r =>
      match trim_end r with
      | EmptyString => if is_white_space c then EmptyString else String c EmptyString
      | kept => String c kept
      end
  end.

(** [String.prototype.trim]. *)
Definition trim (s : string) : string := trim_end (trim_start s).

(** [!s.trim()]: nothing is left of [s] once trimmed. *)
Definition blank (s : string) : bool :=
  match trim s with
  | EmptyString => true
  | String _ _ => false
  end.

Definition line_feed : ascii := ascii_of_N 10.

(** [s.split('\n')]: the lines of [s], at least one. *)
Fixpoint split_lines (s : string) : list string :=
  match s with
  | EmptyString => [EmptyString]
  | String c r =>
      if Ascii.eqb c line_feed then EmptyString :: split_lines r
      else
        match split_lines r with
        | l :: ls => String c l :: ls
        | [] => [String c EmptyString]
        end
  end.

(** [a || b] on strings: [a] unless it is empty. *)
Definition or_else (a b : string) : string :=
  match a with
  | EmptyString => b
  | String _ _ => a
  end.

End Text.

(** ** Section 7: Focus mode, the task list *)

Module Focus.

Import Text.
Local Open Scope nat_scope.
Local Open Scope list_scope.

Inductive Priority : Type := High | Medium | Low.

(** [SubTask] and [Task] of [types.ts]. *)
Record SubTask : Type := {
  sub_id : string;
  sub_text : string;
  sub_completed : bool
}.

Record Task : Type := {
  id : string;
  title : string;
  deadline : string;
  priority : Priority;
  completed : bool;
  subTasks : list SubTask;
  suggestedOrder : option Q;
  reasoning : option string
}.

(** [ScheduleResult] of [types.ts]. *)
Record Suggestion : Type := {
  taskId : string;
  order : Q;
  suggestion_reasoning : string
}.

Record ScheduleResult : Type := {
  schedule_tasks : list Suggestion;
  summary : string
}.

(** The state of the Focus tab; [loading] and [error] are those of the
    whole page, [stored] is the entry [decision_helper_tasks] of
    [localStorage]. *)
Record State : Type := {
  tasks : list Task;
  newTaskTitle : string;
  newTaskDeadline : string;
  newTaskPriority : Priority;
  loading : bool;
  isScheduling : bool;
  scheduleSummary : string;
  error : option string;
  stored : option (list Task)
}.

(** [setTasks], with the effect of lines 125-127 that writes every new
    task list to [localStorage]. *)
Definition setTasks (ts : list Task) (st : State) : State :=
  {| tasks := ts; newTaskTitle := newTaskTitle st;
     newTaskDeadline := newTaskDeadline st;
     newTaskPriority := newTaskPriority st; loading := loading st;
     isScheduling := isScheduling st; scheduleSummary := scheduleSummary st;
     error := error st; stored := Some ts |}.

Definition setError (e : option string) (st : State) : State :=
  {| tasks := tasks st; newTaskTitle := newTaskTitle st;
     newTaskDeadline := newTaskDeadline st;
     newTaskPriority := newTaskPriority st; loading := loading st;
     isScheduling := isScheduling st; scheduleSummary := scheduleSummary st;
     error := e; stored := stored st |}.

Definition setLoading (b : bool) (st : State) : State :=
  {| tasks := tasks st; newTaskTitle := newTaskTitle st;
     newTaskDeadline := newTaskDeadline st;
     newTaskPriority := newTaskPriority st; loading := b;
     isScheduling := isScheduling st; scheduleSummary := scheduleSummary st;
     error := error st; stored := stored st |}.

Definition setIsScheduling (b : bool) (st : State) : State :=
  {| tasks := tasks st; newTaskTitle := newTaskTitle st;
     newTaskDeadline := newTaskDeadline st;
     newTaskPriority := newTaskPriority st; loading := loading st;
     isScheduling := b; scheduleSummary := scheduleSummary st;
     error := error st; stored := stored st |}.

Definition setScheduleSummary (s : string) (st : State) : State :=
  {| tasks := tasks st; newTaskTitle := newTaskTitle st;
     newTaskDeadline := newTaskDeadline st;
     newTaskPriority := newTaskPriority st; loading := loading st;
     isScheduling := isScheduling st; scheduleSummary := s;
     error := error st; stored := stored st |}.

Definition clear_inputs (st : State) : State :=
  {| tasks := tasks st; newTaskTitle := EmptyString;
     newTaskDeadline := EmptyString;
     newTaskPriority := newTaskPriority st; loading := loading st;
     isScheduling := isScheduling st; scheduleSummary := scheduleSummary st;
     error := error st; stored := stored st |}.

(** [addTask], lines 184-197; [newId] is the answer of [uuidv4()]. *)
Definition addTask (newId : string) (st : State) : State :=
  if blank (newTaskTitle st) then st
  else
    let newTask :=
      {| id := newId; title := newTaskTitle st;
         deadline := or_else (newTaskDeadline st) "Today";
         priority := newTaskPriority st; completed := false;
         subTasks := []; suggestedOrder := None; reasoning := None |} in
    clear_inputs (setTasks (tasks st ++ [newTask]) st).

(** [deleteTask], lines 199-201. *)
Definition deleteTask (id' : string) (st : State) : State :=
  setTasks (filter (fun t => negb (String.eqb (id t) id')) (tasks st)) st.

Definition with_completed (b : bool) (t : Task) : Task :=
  {| id := id t; title := title t; deadline := deadline t;
     priority := priority t; completed := b; subTasks := subTasks t;
     suggestedOrder := suggestedOrder t; reasoning := reasoning t |}.

Definition with_subTasks (subs : list SubTask) (t : Task) : Task :=
  {| id := id t; title := title t; deadline := deadline t;
     priority := priority t; completed := completed t; subTasks := subs;
     suggestedOrder := suggestedOrder t; reasoning := reasoning t |}.

Definition with_suggestion (s : Suggestion) (t : Task) : Task :=
  {| id := id t; title := title t; deadline := deadline t;
     priority := priority t; completed := completed t; subTasks := subTasks t;
     suggestedOrder := Some (order s);
     reasoning := Some (suggestion_reasoning s) |}.

(** [toggleTask], lines 203-205. *)
Definition toggleTask (id' : string) (st : State) : State :=
  setTasks
    (map (fun t => if String.eqb (id t) id'
                   then with_completed (negb (completed t)) t else t)
         (tasks st))
    st.

(** [steps.map(s => ({ id: uuidv4(), text: s, completed: false }))]; the
    call number [i] of [uuidv4] answers [uuidv4 i]. *)
Definition new_subTasks (uuidv4 : nat -> string) (steps : list string) : list SubTask :=
  map (fun p => {| sub_id := uuidv4 (fst p); sub_text := snd p;
                   sub_completed := false |})
      (combine (seq 0 (List.length steps)) steps).

(** [handleBreakDown], lines 207-220; [reply] is what [breakDownTask]
    resolves to or rejects with. *)
Definition handleBreakDown (taskId' : string) (uuidv4 : nat -> string)
    (reply : JsError + list string) (st : State) : State :=
  match find (fun t => String.eqb (id t) taskId') (tasks st) with
  | None => st
  | Some task =>
      let st1 := setLoading true st in
      let st2 :=
        match reply with
        | inr steps =>
            let subs := new_subTasks uuidv4 steps in
            setTasks
              (map (fun t => if String.eqb (id t) taskId'
                             then with_subTasks subs t else t)
                   (tasks st))
              st1
        | inl _ => setError (Some "Failed to break down task."%string) st1
        end in
      setLoading false st2
  end.

(** [handleGenerateSchedule], lines 222-241; [reply] is what
    [generateSchedule] resolves to or rejects with. *)
Definition handleGenerateSchedule (reply : JsError + ScheduleResult)
    (st : State) : State :=
  let activeTasks := filter (fun t => negb (completed t)) (tasks st) in
  if Nat.eqb (List.length activeTasks) 0 then st
  else
    let st1 := setIsScheduling true st in
    let st2 :=
      match reply with
      | inr schedule =>
          setTasks
            (map (fun t =>
                    match find (fun s => String.eqb (taskId s) (id t))
                               (schedule_tasks schedule) with
                    | Some suggestion => with_suggestion suggestion t
                    | None => t
                    end)
                 (tasks st))
            (setScheduleSummary (summary schedule) st1)
      | inl _ => setError (Some "Failed to generate schedule."%string) st1
      end in
    setIsScheduling false st2.

(** What the user can do on the Focus tab, with the answers of the
    platform and of the service. *)
Inductive Action : Type :=
| Add (title' deadline' : string) (priority' : Priority) (newId : string)
| Delete (id' : string)
| Toggle (id' : string)
| BreakDown (taskId' : string) (uuidv4 : nat -> string) (reply : JsError + list string)
| Schedule (reply : JsError + ScheduleResult).

(** Typing into the three inputs of the form. *)
Definition type_inputs (title' deadline' : string) (priority' : Priority)
    (st : State) : State :=
  {| tasks := tasks st; newTaskTitle := title'; newTaskDeadline := deadline';
     newTaskPriority := priority'; loading := loading st;
     isScheduling := isScheduling st; scheduleSummary := scheduleSummary st;
     error := error st; stored := stored st |}.

Definition act (st : State) (a : Action) : State :=
  match a with
  | Add title' deadline' priority' newId =>
      addTask newId (type_inputs title' deadline' priority' st)
  | Delete id' => deleteTask id' st
  | Toggle id' => toggleTask id' st
  | BreakDown taskId' uuidv4 reply => handleBreakDown taskId' uuidv4 reply st
  | Schedule reply => handleGenerateSchedule reply st
  end.

(** The Focus tab once mounted on a first visit: nothing was stored, and
    the effect of lines 125-127 has stored the empty list. *)
Definition initial : State :=
  {| tasks := []; newTaskTitle := EmptyString; newTaskDeadline := EmptyString;
     newTaskPriority := Medium; loading := false; isScheduling := false;
     scheduleSummary := EmptyString; error := None; stored := Some [] |}.

End Focus.

(** ** Section 8: asking for a decision *)

Module Decide.

Import Text.
Local Open Scope nat_scope.
Local Open Scope list_scope.

Inductive SubMode : Type := QuickMode | DeepMode.

(** [DecisionResult] of [types.ts]. *)
Record DecisionResult : Type := {
  answer : string;
  answer_explanation : string;
  answer_confidence : Q;
  advantages : option (list string);
  disadvantages : option (list string)
}.

(** *** The service: [getDecisionRecommendation] *)

(** [xs.join('\n')]. *)
Fixpoint join_lines (xs : list string) : string :=
  match xs with
  | [] => EmptyString
  | [x] => x
  | x :: r => (x ++ String line_feed (join_lines r))%string
  end.

Definition isLongInput (decision : History.Decision) : bool :=
  (200 <? String.length (History.dilemma decision))
  || (0 <? List.length (History.pros decision) + List.length (History.cons decision)).

Definition bullet_list (heading : string) (items : list History.WeightedItem) : string :=
  if 0 <? List.length items
  then (heading ++ String line_feed
          (join_lines (map (fun p => ("- " ++ History.text p)%string) items)))%string
  else EmptyString.

Definition structured_request : string :=
  "Since this is a detailed dilemma, provide a structured response including a list of core advantages and disadvantages you've identified.".

Definition concise_request : string :=
  "Since this is a short dilemma, be extremely concise and punchy.".

(** The prompt sent to the model. *)
Definition prompt (decision : History.Decision) : string :=
  let nl := String line_feed EmptyString in
  (nl ++ "Dilemma: " ++ History.dilemma decision ++ nl
   ++ bullet_list "User-provided Advantages:" (History.pros decision) ++ nl
   ++ bullet_list "User-provided Disadvantages:" (History.cons decision) ++ nl
   ++ nl
   ++ "Task: Provide a decisive and empathetic recommendation." ++ nl
   ++ (if isLongInput decision then structured_request else concise_request) ++ nl
   ++ nl
   ++ "Detect the language of the dilemma and respond in that same language."
   ++ nl)%string.

Definition interrupted_message : string :=
  "My thought process was interrupted. Could you try asking again?".

(** [getDecisionRecommendation]: the prompt it sends, and the result it
    resolves to or the message of the [Error] it rejects with.  [reply] is
    the parsed answer of the model, or the failure of the call or of
    [JSON.parse]. *)
Definition getDecisionRecommendation (decision : History.Decision)
    (reply : JsError + DecisionResult) : string * (string + DecisionResult) :=
  (prompt decision,
   match reply with
   | inr parsed => inr parsed
   | inl _ => inl interrupted_message
   end).

(** *** The form *)

Record State : Type := {
  dilemma : string;
  prosText : string;
  consText : string;
  standardSubMode : SubMode;
  loading : bool;
  result : option DecisionResult;
  error : option string;
  store : History.Store
}.

Definition setError (e : option string) (st : State) : State :=
  {| dilemma := dilemma st; prosText := prosText st; consText := consText st;
     standardSubMode := standardSubMode st; loading := loading st;
     result := result st; error := e; store := store st |}.

Definition setLoading (b : bool) (st : State) : State :=
  {| dilemma := dilemma st; prosText := prosText st; consText := consText st;
     standardSubMode := standardSubMode st; loading := b;
     result := result st; error := error st; store := store st |}.

Definition setResult (r : option DecisionResult) (st : State) : State :=
  {| dilemma := dilemma st; prosText := prosText st; consText := consText st;
     standardSubMode := standardSubMode st; loading := loading st;
     result := r; error := error st; store := store st |}.

Definition setStore (s : History.Store) (st : State) : State :=
  {| dilemma := dilemma st; prosText := prosText st; consText := consText st;
     standardSubMode := standardSubMode st; loading := loading st;
     result := result st; error := error st; store := s |}.

(** [text.split('\n').filter(l => l.trim()).map(l => ({ id: uuidv4(),
    text: l.trim(), weight: 5 }))]; the call number [i] of [uuidv4]
    answers [uuidv4 i], and [first] calls were made before. *)
Definition weighted_items (uuidv4 : nat -> string) (first : nat) (text : string)
    : list History.WeightedItem :=
  let lines := filter (fun l => negb (blank l)) (split_lines text) in
  map (fun p => {| History.item_id := uuidv4 (first + fst p);
                   History.text := trim (snd p);
                   History.weight := 5 |})
      (combine (seq 0 (List.length lines)) lines).

(** The [decisionData] of [handleDecide], lines 150-166; [now] is
    [Date.now()]. *)
Definition decisionData (uuidv4 : nat -> string) (now : Z) (st : State)
    : History.Decision :=
  let pros :=
    match standardSubMode st with
    | DeepMode => weighted_items uuidv4 0 (prosText st)
    | QuickMode => []
    end in
  let cons :=
    match standardSubMode st with
    | DeepMode => weighted_items uuidv4 (List.length pros) (consText st)
    | QuickMode => []
    end in
  {| History.id := uuidv4 (List.length pros + List.length cons);
     History.dilemma := dilemma st;
     History.pros := pros;
     History.cons := cons;
     History.mode := match standardSubMode st with
                     | DeepMode => History.Standard
                     | QuickMode => History.Quick
                     end;
     History.recommendation := None;
     History.explanation := None;
     History.confidence := None;
     History.outcome := Some History.Pending;
     History.createdAt := now |}.

(** [{...decisionData, recommendation, explanation, confidence}]. *)
Definition answered (d : History.Decision) (ai : DecisionResult) : History.Decision :=
  {| History.id := History.id d; History.dilemma := History.dilemma d;
     History.pros := History.pros d; History.cons := History.cons d;
     History.mode := History.mode d;
     History.recommendation := Some (answer ai);
     History.explanation := Some (answer_explanation ai);
     History.confidence := Some (answer_confidence ai);
     History.outcome := History.outcome d;
     History.createdAt := History.createdAt d |}.

(** [handleDecide], lines 141-181, from the click to the end of the
    request. *)
Definition handleDecide (uuidv4 : nat -> string) (now : Z)
    (reply : JsError + DecisionResult) (st : State) : State :=
  if blank (dilemma st)
  then setError (Some "Tell me a bit about what's on your mind."%string) st
  else
    let st1 := setResult None (setLoading true (setError None st)) in
    let decision := decisionData uuidv4 now st in
    let st2 :=
      match snd (getDecisionRecommendation decision reply) with
      | inr aiResponse =>
          setStore (History.saveToHistory (answered decision aiResponse) (store st1))
                   (setResult (Some aiResponse) st1)
      | inl message =>
          setError (Some (or_else message "I had some trouble thinking that through."))
                   st1
      end in
    setLoading false st2.

End Decide.

(** * Properties *)

Unset Implicit Arguments.

(** ** Base64: [atob] undoes [btoa] *)

Module Base64Facts.

Import Base64.
Local Open Scope list_scope.
Local Open Scope N_scope.

Lemma list_ind3 (A : Type) (P : list A -> Prop) :
  P [] ->
  (forall x, P [x]) ->
  (forall x y, P [x; y]) ->
  (forall x y z r, P r -> P (x :: y :: z :: r)) ->
  forall l, P l.
Proof.
  intros H0 H1 H2 H3.
  assert (H : forall l, P l /\ (forall x, P (x :: l)) /\ (forall x y, P (x :: y :: l))).
  { induction l as [|a l [IH0 [IH1 IH2]]].
    - repeat split; auto.
    - repeat split; auto. }
  intro l. apply H.
Qed.

Lemma below_complete (n : nat) (x : N) : x < N.of_nat n -> In x (below n).
Proof.
  intro H. unfold below. apply in_map_iff.
  exists (N.to_nat x). split.
  - apply N2Nat.id.
  - apply in_seq. lia.
Qed.

Lemma check1 (P : N -> bool) (n : nat) :
  forallb P (below n) = true -> forall x, x < N.of_nat n -> P x = true.
Proof.
  intros H x Hx. rewrite forallb_forall in H. apply H, below_complete, Hx.
Qed.

Lemma check2 (P : N -> N -> bool) (n m : nat) :
  forallb (fun x => forallb (P x) (below m)) (below n) = true ->
  forall x y, x < N.of_nat n -> y < N.of_nat m -> P x y = true.
Proof.
  intros H x y Hx Hy.
  apply (check1 (fun x => forallb (P x) (below m)) n H) in Hx.
  apply (check1 (P x) m Hx), Hy.
Qed.

Lemma code_bound (c : ascii) : code c < 256.
Proof. apply N_ascii_bounded. Qed.

Lemma octet_code (n : N) (c : ascii) : N.land n 255 = code c -> octet n = c.
Proof. unfold octet, code. intros ->. apply ascii_N_embedding. Qed.

(** *** The bit arithmetic of one group *)

Lemma first_octet (x y : N) : x < 256 -> y < 256 ->
  N.land (N.lor (N.shiftl (N.shiftr x 2) 2)
            (N.shiftr (N.lor (N.shiftl (N.land x 3) 4) (N.shiftr y 4)) 4)) 255 = x.
Proof.
  intros Hx Hy. apply N.eqb_eq.
  apply (check2 (fun x y =>
    N.land (N.lor (N.shiftl (N.shiftr x 2) 2)
            (N.shiftr (N.lor (N.shiftl (N.land x 3) 4) (N.shiftr y 4)) 4)) 255 =? x)
    256 256); [vm_compute; reflexivity | exact Hx | exact Hy].
Qed.

Lemma first_octet_alone (x : N) : x < 256 ->
  N.land (N.lor (N.shiftl (N.shiftr x 2) 2)
            (N.shiftr (N.shiftl (N.land x 3) 4) 4)) 255 = x.
Proof.
  intros Hx. apply N.eqb_eq.
  apply (check1 (fun x =>
    N.land (N.lor (N.shiftl (N.shiftr x 2) 2)
            (N.shiftr (N.shiftl (N.land x 3) 4) 4)) 255 =? x) 256);
    [vm_compute; reflexivity | exact Hx].
Qed.

Lemma low2_bound (x : N) : x < 256 -> N.land x 3 < 4.
Proof.
  intros Hx. apply N.ltb_lt.
  apply (check1 (fun x => N.land x 3 <? 4) 256); [vm_compute; reflexivity | exact Hx].
Qed.

Lemma high2_bound (z : N) : z < 256 -> N.shiftr z 6 < 4.
Proof.
  intros Hz. apply N.ltb_lt.
  apply (check1 (fun z => N.shiftr z 6 <? 4) 256); [vm_compute; reflexivity | exact Hz].
Qed.

(** The second octet only keeps the low bits of the second sextet, so the
    two bits [a] that come from the first octet do not matter. *)
Lemma second_octet_gen (a y d : N) : a < 4 -> y < 256 -> d < 4 ->
  N.land (N.lor (N.shiftl (N.lor (N.shiftl a 4) (N.shiftr y 4)) 4)
            (N.shiftr (N.lor (N.shiftl (N.land y 15) 2) d) 2)) 255 = y.
Proof.
  intros Ha Hy Hd.
  assert (E : (N.shiftr (N.lor (N.shiftl a 2) d) 2 =? a)
              && (N.land (N.lor (N.shiftl a 2) d) 3 =? d)
              && (N.lor (N.shiftl a 2) d <? 16) = true).
  { apply (check2 (fun a d =>
      (N.shiftr (N.lor (N.shiftl a 2) d) 2 =? a)
      && (N.land (N.lor (N.shiftl a 2) d) 3 =? d)
      && (N.lor (N.shiftl a 2) d <? 16)) 4 4);
      [vm_compute; reflexivity | exact Ha | exact Hd]. }
  apply andb_true_iff in E. destruct E as [E E3].
  apply andb_true_iff in E. destruct E as [E1 E2].
  apply N.eqb_eq in E1, E2. apply N.ltb_lt in E3.
  assert (H : (N.land (N.lor
      (N.shiftl (N.lor (N.shiftl (N.shiftr (N.lor (N.shiftl a 2) d) 2) 4) (N.shiftr y 4)) 4)
      (N.shiftr (N.lor (N.shiftl (N.land y 15) 2) (N.land (N.lor (N.shiftl a 2) d) 3)) 2))
      255 =? y) = true).
  { apply (check2 (fun y ad =>
      N.land (N.lor
        (N.shiftl (N.lor (N.shiftl (N.shiftr ad 2) 4) (N.shiftr y 4)) 4)
        (N.shiftr (N.lor (N.shiftl (N.land y 15) 2) (N.land ad 3)) 2)) 255 =? y)
      256 16); [vm_compute; reflexivity | exact Hy | exact E3]. }
  rewrite E1, E2 in H. apply N.eqb_eq, H.
Qed.

Lemma second_octet_last (a y : N) : a < 4 -> y < 256 ->
  N.land (N.lor (N.shiftl (N.lor (N.shiftl a 4) (N.shiftr y 4)) 4)
            (N.shiftr (N.shiftl (N.land y 15) 2) 2)) 255 = y.
Proof.
  intros Ha Hy. apply N.eqb_eq.
  apply (check2 (fun a y =>
    N.land (N.lor (N.shiftl (N.lor (N.shiftl a 4) (N.shiftr y 4)) 4)
            (N.shiftr (N.shiftl (N.land y 15) 2) 2)) 255 =? y) 4 256);
    [vm_compute; reflexivity | exact Ha | exact Hy].
Qed.

Lemma third_octet (y z : N) : y < 256 -> z < 256 ->
  N.land (N.lor (N.shiftl (N.lor (N.shiftl (N.land y 15) 2) (N.shiftr z 6)) 6)
            (N.land z 63)) 255 = z.
Proof.
  intros Hy Hz. apply N.eqb_eq.
  apply (check2 (fun y z =>
    N.land (N.lor (N.shiftl (N.lor (N.shiftl (N.land y 15) 2) (N.shiftr z 6)) 6)
            (N.land z 63)) 255 =? z) 256 256);
    [vm_compute; reflexivity | exact Hy | exact Hz].
Qed.

Lemma octets_sextets (l : list ascii) : octets (sextets l) = l.
Proof.
  induction l as [| x | x y | x y z r IH] using list_ind3.
  - reflexivity.
  - cbn [sextets octets]. f_equal.
    apply octet_code, first_octet_alone, code_bound.
  - cbn [sextets octets]. f_equal; [|f_equal].
    + apply octet_code, first_octet; apply code_bound.
    + apply octet_code, second_octet_last; [apply low2_bound|]; apply code_bound.
  - cbn [sextets octets]. rewrite IH. f_equal; [|f_equal; [|f_equal]].
    + apply octet_code, first_octet; apply code_bound.
    + apply octet_code, second_octet_gen;
        [apply low2_bound | | apply high2_bound]; apply code_bound.
    + apply octet_code, third_octet; apply code_bound.
Qed.

(** *** Every sextet is a 6-bit value, and its character decodes back *)

Lemma sextets_bound (l : list ascii) : Forall (fun n => n < 64) (sextets l).
Proof.
  assert (B1 : forall x, x < 256 -> N.shiftr x 2 < 64).
  { intros x Hx. apply N.ltb_lt.
    apply (check1 (fun x => N.shiftr x 2 <? 64) 256); [vm_compute; reflexivity | exact Hx]. }
  assert (B2 : forall x y, x < 256 -> y < 256 ->
             N.lor (N.shiftl (N.land x 3) 4) (N.shiftr y 4) < 64).
  { intros x y Hx Hy. apply N.ltb_lt.
    apply (check2 (fun x y => N.lor (N.shiftl (N.land x 3) 4) (N.shiftr y 4) <? 64) 256 256);
      [vm_compute; reflexivity | exact Hx | exact Hy]. }
  assert (B3 : forall y z, y < 256 -> z < 256 ->
             N.lor (N.shiftl (N.land y 15) 2) (N.shiftr z 6) < 64).
  { intros y z Hy Hz. apply N.ltb_lt.
    apply (check2 (fun y z => N.lor (N.shiftl (N.land y 15) 2) (N.shiftr z 6) <? 64) 256 256);
      [vm_compute; reflexivity | exact Hy | exact Hz]. }
  assert (B4 : forall z, z < 256 -> N.land z 63 < 64).
  { intros z Hz. apply N.ltb_lt.
    apply (check1 (fun z => N.land z 63 <? 64) 256); [vm_compute; reflexivity | exact Hz]. }
  assert (B5 : forall x, x < 256 -> N.shiftl (N.land x 3) 4 < 64).
  { intros x Hx. apply N.ltb_lt.
    apply (check1 (fun x => N.shiftl (N.land x 3) 4 <? 64) 256); [vm_compute; reflexivity | exact Hx]. }
  assert (B6 : forall y, y < 256 -> N.shiftl (N.land y 15) 2 < 64).
  { intros y Hy. apply N.ltb_lt.
    apply (check1 (fun y => N.shiftl (N.land y 15) 2 <? 64) 256); [vm_compute; reflexivity | exact Hy]. }
  induction l as [| x | x y | x y z r IH] using list_ind3; cbn [sextets].
  - constructor.
  - repeat constructor; [apply B1 | apply B5]; apply code_bound.
  - repeat constructor; [apply B1 | apply B2 | apply B6]; apply code_bound.
  - repeat (constructor; [solve [apply B1 + apply B2 + apply B3 + apply B4; apply code_bound] |]).
    exact IH.
Qed.

Lemma dec6_enc6 (n : N) : n < 64 -> dec6 (enc6 n) = Some n.
Proof.
  intro H.
  assert (E : option_N_eqb (dec6 (enc6 n)) (Some n) = true).
  { apply (check1 (fun n => option_N_eqb (dec6 (enc6 n)) (Some n)) 64);
      [vm_compute; reflexivity | exact H]. }
  destruct (dec6 (enc6 n)) as [m|]; cbn in E; [|discriminate].
  apply N.eqb_eq in E. now subst.
Qed.

Lemma enc6_not_whitespace (n : N) : n < 64 -> is_ascii_whitespace (enc6 n) = false.
Proof.
  intro H. apply negb_true_iff.
  apply (check1 (fun n => negb (is_ascii_whitespace (enc6 n))) 64);
    [vm_compute; reflexivity | exact H].
Qed.

Lemma enc6_not_pad (n : N) : n < 64 -> Ascii.eqb (enc6 n) pad_char = false.
Proof.
  intro H. apply negb_true_iff.
  apply (check1 (fun n => negb (Ascii.eqb (enc6 n) pad_char)) 64);
    [vm_compute; reflexivity | exact H].
Qed.

Lemma all_dec6_enc6 (ss : list N) :
  Forall (fun n => n < 64) ss -> all_dec6 (map enc6 ss) = Some ss.
Proof.
  induction 1 as [|n ss Hn _ IH]; cbn [map all_dec6].
  - reflexivity.
  - now rewrite (dec6_enc6 n Hn), IH.
Qed.

Lemma padding_not_whitespace (n : nat) :
  Forall (fun c => negb (is_ascii_whitespace c) = true) (padding n).
Proof.
  unfold padding. destruct (n mod 3)%nat as [|[|[|k]]]; repeat constructor.
Qed.

Lemma filter_all (A : Type) (f : A -> bool) (l : list A) :
  Forall (fun c => f c = true) l -> filter f l = l.
Proof.
  induction 1 as [|c l Hc _ IH]; cbn [filter].
  - reflexivity.
  - now rewrite Hc, IH.
Qed.

Lemma no_whitespace (l : list ascii) :
  filter (fun c => negb (is_ascii_whitespace c)) (btoa_list l) = btoa_list l.
Proof.
  apply filter_all. unfold btoa_list. apply Forall_app. split.
  - apply Forall_map. eapply Forall_impl; [|apply sextets_bound].
    cbn beta. intros n Hn. now rewrite enc6_not_whitespace.
  - apply padding_not_whitespace.
Qed.

(** *** Padding and lengths *)

Lemma strip_padding_body (ss : list N) (n : nat) :
  Forall (fun k => k < 64) ss ->
  strip_padding (map enc6 ss ++ padding n) = map enc6 ss.
Proof.
  intro H. unfold strip_padding. rewrite rev_app_distr.
  assert (L : forall body, body = rev (map enc6 ss) ->
            match body with
            | [] => True
            | p :: _ => Ascii.eqb p pad_char = false
            end).
  { intros body ->. rewrite <- map_rev.
    apply Forall_rev in H. destruct H as [|k r Hk _]; cbn [map]; [exact I|].
    now apply enc6_not_pad. }
  specialize (L _ eq_refl).
  unfold padding. destruct (n mod 3)%nat as [|[|[|k]]]; cbn [rev app].
  - rewrite app_nil_r.
    destruct (rev (map enc6 ss)) as [|p [|q r]]; try rewrite L; reflexivity.
  - change (Ascii.eqb pad_char pad_char) with true. cbn iota.
    rewrite <- (rev_involutive (map enc6 ss)) at 2. reflexivity.
  - change (Ascii.eqb pad_char pad_char) with true. cbn iota.
    rewrite <- (rev_involutive (map enc6 ss)) at 2.
    destruct (rev (map enc6 ss)) as [|q r]; [reflexivity|].
    now rewrite L.
  - rewrite app_nil_r.
    destruct (rev (map enc6 ss)) as [|p [|q r]]; try rewrite L; reflexivity.
Qed.

Lemma lengths (l : list ascii) :
  exists k : nat,
    (List.length (btoa_list l) = 4 * k
     /\ (List.length (sextets l) = 4 * (k - 1) + 2 /\ 1 <= k
         \/ List.length (sextets l) = 4 * (k - 1) + 3 /\ 1 <= k
         \/ List.length (sextets l) = 4 * k))%nat.
Proof.
  unfold btoa_list.
  induction l as [| x | x y | x y z r [k [IH1 IH2]]] using list_ind3.
  - exists 0%nat. cbn. auto.
  - exists 1%nat. cbn. auto.
  - exists 1%nat. cbn. auto.
  - exists (S k). rewrite length_app, length_map in *.
    replace (padding (List.length (x :: y :: z :: r))) with (padding (List.length r)).
    + cbn [sextets List.length]. lia.
    + unfold padding. cbn [List.length].
      replace (S (S (S (List.length r)))) with (List.length r + 1 * 3)%nat by lia.
      now rewrite Nat.Div0.mod_add.
Qed.

Lemma mod4_mul (k : nat) : ((4 * k) mod 4 = 0)%nat.
Proof. rewrite Nat.mul_comm. apply Nat.Div0.mod_mul. Qed.

Lemma mod4_add (k r : nat) : (r < 4 -> (4 * k + r) mod 4 = r)%nat.
Proof.
  intro H. rewrite Nat.add_comm, Nat.mul_comm, Nat.Div0.mod_add.
  now apply Nat.mod_small.
Qed.

(** *** The round trip *)

Lemma atob_btoa_list (l : list ascii) : atob_list (btoa_list l) = Some l.
Proof.
  unfold atob_list. rewrite no_whitespace.
  destruct (lengths l) as [k [Hk Hs]].
  rewrite Hk, mod4_mul. cbn [Nat.eqb].
  unfold btoa_list. rewrite strip_padding_body by apply sextets_bound.
  rewrite length_map.
  assert (E : (List.length (sextets l) mod 4 =? 1)%nat = false).
  { destruct Hs as [[-> _] | [[-> _] | ->]].
    - now rewrite mod4_add by lia.
    - now rewrite mod4_add by lia.
    - now rewrite mod4_mul. }
  rewrite E, all_dec6_enc6 by apply sextets_bound.
  cbn [option_map]. now rewrite octets_sextets.
Qed.

Lemma atob_btoa (s : string) : atob (btoa s) = Some s.
Proof.
  unfold atob, btoa.
  rewrite list_ascii_of_string_of_list_ascii, atob_btoa_list.
  cbn [option_map]. now rewrite string_of_list_ascii_of_string.
Qed.

(** The test vectors of RFC 4648, and the cases the forgiving decoder
    accepts or refuses. *)
Example btoa_rfc4648 :
  map btoa ["f"; "fo"; "foo"; "foob"; "fooba"; "foobar"]%string
  = ["Zg=="; "Zm8="; "Zm9v"; "Zm9vYg=="; "Zm9vYmE="; "Zm9vYmFy"]%string.
Proof. reflexivity. Qed.

Example atob_forgiving :
  map atob ["Zm9vYg=="; "Zm9vYg"; " Zm9v Yg== "; "Zg="; "Zm9vY"; "Zm9v!"]%string
  = [Some "foob"; Some "foob"; Some "foob"; None; None; None]%string.
Proof. reflexivity. Qed.

End Base64Facts.

(** ** Typed arrays: what an index loop leaves in the array *)

Module TypedArrayFacts.

Import TypedArray.
Local Open Scope list_scope.
Local Open Scope nat_scope.

Lemma array_set_length (A : Type) (i : nat) (v : A) (a : list A) :
  List.length (array_set i v a) = List.length a.
Proof.
  revert i. induction a as [|x a IH]; intros [|i]; cbn; auto.
Qed.

Lemma nth_error_array_set (A : Type) (i : nat) (v : A) (a : list A) (j : nat) :
  nth_error (array_set i v a) j =
  if (j =? i)%nat && (i <? List.length a)%nat then Some v else nth_error a j.
Proof.
  revert i j. induction a as [|x a IH]; intros [|i] [|j]; cbn [array_set nth_error List.length];
    try reflexivity.
  - now rewrite andb_false_r.
  - rewrite IH. reflexivity.
Qed.

Lemma fill_S (A : Type) (n : nat) (f : nat -> A) (a : list A) :
  fill (S n) f a = array_set n (f n) (fill n f a).
Proof.
  unfold fill. rewrite seq_S, fold_left_app. reflexivity.
Qed.

Lemma fill_length (A : Type) (n : nat) (f : nat -> A) (a : list A) :
  List.length (fill n f a) = List.length a.
Proof.
  induction n as [|n IH]; [reflexivity|].
  now rewrite fill_S, array_set_length.
Qed.

Lemma nth_error_fill (A : Type) (n : nat) (f : nat -> A) (a : list A) (j : nat) :
  nth_error (fill n f a) j =
  if (j <? n)%nat && (j <? List.length a)%nat then Some (f j) else nth_error a j.
Proof.
  induction n as [|n IH]; [reflexivity|].
  rewrite fill_S, nth_error_array_set, fill_length, IH.
  destruct (Nat.eqb_spec j n) as [->|Hne].
  - rewrite Nat.ltb_irrefl.
    replace (n <? S n)%nat with true by (symmetry; apply Nat.ltb_lt; lia).
    cbn [andb]. destruct (n <? List.length a)%nat; reflexivity.
  - cbn [andb].
    destruct (Nat.ltb_spec j n), (Nat.ltb_spec j (S n)); try lia; reflexivity.
Qed.

(** A loop that runs at least to the end of the array overwrites all of it. *)
Lemma fill_all (A : Type) (n : nat) (f : nat -> A) (a : list A) :
  List.length a <= n -> fill n f a = map f (seq 0 (List.length a)).
Proof.
  intro H. apply nth_error_ext. intro j.
  rewrite nth_error_fill, nth_error_map, nth_error_seq.
  destruct (Nat.ltb_spec j (List.length a)) as [Hj|Hj].
  - replace (j <? n)%nat with true by (symmetry; apply Nat.ltb_lt; lia).
    reflexivity.
  - rewrite andb_false_r. now apply nth_error_None.
Qed.

Lemma map_seq_nth_error (A B : Type) (g : A -> B) (d : B) (l : list A) :
  map (fun i => match nth_error l i with Some x => g x | None => d end)
      (seq 0 (List.length l)) = map g l.
Proof.
  apply nth_error_ext. intro j.
  rewrite !nth_error_map, nth_error_seq.
  destruct (Nat.ltb_spec j (List.length l)) as [Hj|Hj]; cbn [option_map Nat.add].
  - destruct (nth_error l j) eqn:E; [reflexivity|].
    apply nth_error_None in E. lia.
  - apply nth_error_None in Hj. now rewrite Hj.
Qed.

End TypedArrayFacts.

(** ** The codec helpers *)

Module CodecFacts.

Import TypedArray Codec TypedArrayFacts.
Local Open Scope list_scope.
Local Open Scope nat_scope.

Lemma append_empty (s : string) : (s ++ "")%string = s.
Proof. induction s as [|c s IH]; cbn; [reflexivity | now f_equal]. Qed.

Lemma append_cons (s t : string) (c : ascii) :
  ((s ++ String c "") ++ t)%string = (s ++ String c t)%string.
Proof. induction s as [|d s IH]; cbn; [reflexivity | now f_equal]. Qed.

Lemma binary_string (bytes : list byte) (acc : string) :
  fold_left (fun acc b => (acc ++ fromCharCode b)%string) bytes acc =
  (acc ++ string_of_list_ascii (map ascii_of_byte bytes))%string.
Proof.
  revert acc. induction bytes as [|b r IH]; intro acc; cbn [fold_left map string_of_list_ascii].
  - symmetry. apply append_empty.
  - rewrite IH. unfold fromCharCode. apply append_cons.
Qed.

Lemma get_nth_error (s : string) (i : nat) :
  String.get i s = nth_error (list_ascii_of_string s) i.
Proof.
  revert i. induction s as [|c s IH]; intros [|i]; cbn; auto.
Qed.

Lemma length_list_ascii (s : string) :
  List.length (list_ascii_of_string s) = String.length s.
Proof. induction s as [|c s IH]; cbn; auto. Qed.

Lemma decode_bytes (s : string) :
  fill (String.length s) (charCodeAt s) (repeat x00 (String.length s)) =
  map byte_of_ascii (list_ascii_of_string s).
Proof.
  rewrite fill_all by (rewrite repeat_length; lia).
  rewrite repeat_length, <- length_list_ascii.
  unfold charCodeAt.
  rewrite <- (map_seq_nth_error _ _ byte_of_ascii x00 (list_ascii_of_string s)).
  apply map_ext. intro i. now rewrite get_nth_error.
Qed.

(** C4.  For every byte sequence, [decode] applied to the text [encode]
    produces returns that byte sequence, without raising; hence [encode] is
    injective: the text determines the bytes. *)
Theorem decode_encode :
  (forall b : list byte, decode (encode b) = inr b) /\
  (forall b b' : list byte, encode b = encode b' -> b = b').
Proof.
  assert (R : forall b : list byte, decode (encode b) = inr b).
  { intro b. unfold decode, encode.
    rewrite binary_string. cbn [String.append].
    rewrite Base64Facts.atob_btoa, decode_bytes.
    rewrite list_ascii_of_string_of_list_ascii, map_map.
    f_equal. rewrite <- (map_id b) at 2.
    apply map_ext. intro x. apply byte_of_ascii_of_byte. }
  split; [exact R|].
  intros b b' E. pose proof (R b) as H. rewrite E, R in H.
  now injection H.
Qed.

(** *** [createBlob]: the conversion of one sample *)

Lemma wrap16_range (t : Z) : (-32768 <= wrap16 t <= 32767)%Z.
Proof.
  unfold wrap16. cbv zeta.
  destruct (Z.leb_spec 32768 (t mod 65536));
    Z.to_euclidean_division_equations; lia.
Qed.

Lemma wrap16_congruent (t : Z) : exists k : Z, (wrap16 t = t + 65536 * k)%Z.
Proof.
  unfold wrap16. cbv zeta.
  destruct (Z.leb_spec 32768 (t mod 65536)).
  - exists (- (t / 65536) - 1)%Z. Z.to_euclidean_division_equations; lia.
  - exists (- (t / 65536))%Z. Z.to_euclidean_division_equations; lia.
Qed.

Lemma wrap16_small (t : Z) : (-32768 <= t <= 32767)%Z -> wrap16 t = t.
Proof.
  intro H. unfold wrap16. cbv zeta.
  destruct (Z.leb_spec 32768 (t mod 65536));
    Z.to_euclidean_division_equations; lia.
Qed.

(** [Qtrunc] rounds toward zero: it drops the fraction of a positive number
    and of a negative one alike. *)
Lemma Qtrunc_nonneg (q : Q) :
  (0 <= q -> inject_Z (Qtrunc q) <= q /\ q < inject_Z (Qtrunc q) + 1)%Q.
Proof.
  destruct q as [a b]. unfold Qtrunc, Qle, Qlt. cbn.
  intro H. rewrite Z.mul_1_r in H.
  pose proof (Z.quot_rem' a (Z.pos b)) as E.
  pose proof (Z.rem_bound_pos a (Z.pos b) H ltac:(lia)) as B.
  split; nia.
Qed.

Lemma Qtrunc_nonpos (q : Q) :
  (q <= 0 -> inject_Z (Qtrunc q) - 1 < q /\ q <= inject_Z (Qtrunc q))%Q.
Proof.
  destruct q as [a b]. unfold Qtrunc, Qle, Qlt. cbn.
  intro H. rewrite Z.mul_1_r in H.
  pose proof (Z.quot_rem' a (Z.pos b)) as E.
  pose proof (Z.rem_bound_pos_neg a (Z.pos b) ltac:(lia) H) as B.
  split; nia.
Qed.

Lemma floatToPcm16_map (samples : list JsNumber) :
  floatToPcm16 samples = map (fun x => to_int16 (scale x)) samples.
Proof.
  unfold floatToPcm16. cbv zeta.
  rewrite fill_all by (rewrite repeat_length; lia).
  rewrite repeat_length.
  rewrite <- (map_seq_nth_error _ _ (fun x => to_int16 (scale x)) (to_int16 (scale NaN)) samples).
  apply map_ext. intro i.
  destruct (nth_error samples i) as [x|] eqn:E.
  - now rewrite (nth_error_nth _ _ _ E).
  - now rewrite (nth_error_nth_None _ _ _ E).
Qed.

(** C9.  [createBlob] stores, for the finite sample [f] at index [i], the
    signed 16-bit integer [r] that is congruent modulo 2^16 to [t], the
    product [f * 32768] rounded toward zero.  Nothing is clamped: [r] is [t]
    itself when [t] fits in 16 bits and wraps around otherwise. *)
Theorem floatToPcm16_wraps (samples : list JsNumber) (i : nat) (f : Q) :
  nth_error samples i = Some (Num f) ->
  exists t r : Z,
    nth_error (floatToPcm16 samples) i = Some r
    /\ (0 <= f -> inject_Z t <= f * 32768 /\ f * 32768 < inject_Z t + 1)%Q
    /\ (f <= 0 -> inject_Z t - 1 < f * 32768 /\ f * 32768 <= inject_Z t)%Q
    /\ (-32768 <= r <= 32767)%Z
    /\ (exists k : Z, r = t + 65536 * k)%Z
    /\ ((-32768 <= t <= 32767)%Z -> r = t).
Proof.
  intro H.
  exists (Qtrunc (f * 32768)), (wrap16 (Qtrunc (f * 32768))).
  split; [|split; [|split; [|split; [|split]]]].
  - rewrite floatToPcm16_map, nth_error_map, H. reflexivity.
  - intro Hf. apply Qtrunc_nonneg.
    apply Qmult_le_0_compat; [exact Hf | discriminate].
  - intro Hf. apply Qtrunc_nonpos.
    setoid_replace 0%Q with (0 * 32768)%Q by reflexivity.
    apply Qmult_le_compat_r; [exact Hf | discriminate].
  - apply wrap16_range.
  - apply wrap16_congruent.
  - apply wrap16_small.
Qed.

(** A full-scale sample wraps to the most negative value. *)
Lemma floatToPcm16_wraps_witness :
  nth_error [Num 1] 0 = Some (Num 1) /\
  exists t r : Z,
    nth_error (floatToPcm16 [Num 1]) 0 = Some r
    /\ (0 <= 1 -> inject_Z t <= 1 * 32768 /\ 1 * 32768 < inject_Z t + 1)%Q
    /\ (1 <= 0 -> inject_Z t - 1 < 1 * 32768 /\ 1 * 32768 <= inject_Z t)%Q
    /\ (-32768 <= r <= 32767)%Z
    /\ (exists k : Z, r = t + 65536 * k)%Z
    /\ ((-32768 <= t <= 32767)%Z -> r = t).
Proof.
  split; [reflexivity|].
  apply (floatToPcm16_wraps [Num 1] 0 1). reflexivity.
Defined.

Example createBlob_two_samples :
  createBlob [Num (1 # 2); Num (-1)] =
  {| data := "AEAAgA=="; mimeType := "audio/pcm;rate=16000" |}.
Proof. reflexivity. Qed.

(** *** [decodeAudioData] *)

Lemma byte_to_Z_range (b : byte) : (0 <= byte_to_Z b <= 255)%Z.
Proof. unfold byte_to_Z. pose proof (Byte.to_N_bounded b). lia. Qed.

Lemma byte_to_of_Z (z : Z) : byte_to_Z (byte_of_Z z) = (z mod 256)%Z.
Proof.
  unfold byte_to_Z, byte_of_Z.
  destruct (Byte.of_N (Z.to_N (z mod 256))) as [b|] eqn:E.
  - apply Byte.to_of_N in E. rewrite E.
    apply Z2N.id. Z.to_euclidean_division_equations; lia.
  - apply Byte.of_N_None_iff in E.
    Z.to_euclidean_division_equations; lia.
Qed.

(** The two views of the same buffer agree: the bytes [createBlob] sends
    read back as the 16-bit samples it stored. *)
Lemma int16_view_uint8_view (int16 : list Z) :
  Forall (fun x => -32768 <= x <= 32767)%Z int16 ->
  int16_view (uint8_view int16) = inr int16.
Proof.
  induction 1 as [|x r Hx _ IH]; [reflexivity|].
  unfold uint8_view in *. cbn [flat_map app int16_view]. rewrite IH.
  do 2 f_equal. rewrite !byte_to_of_Z, Z.shiftr_div_pow2 by lia.
  unfold wrap16. cbv zeta. change (2 ^ 8)%Z with 256%Z.
  destruct (Z.leb_spec 32768 ((x mod 256 + 256 * (x / 256 mod 256)) mod 65536));
    Z.to_euclidean_division_equations; lia.
Qed.

Lemma list_ind2 (A : Type) (P : list A -> Prop) :
  P [] ->
  (forall x, P [x]) ->
  (forall x y r, P r -> P (x :: y :: r)) ->
  forall l, P l.
Proof.
  intros H0 H1 H2.
  assert (H : forall l, P l /\ forall x, P (x :: l)).
  { induction l as [|a l [IH0 IH1]]; split; auto. }
  intro l. apply H.
Qed.

Lemma int16_view_range (bytes : list byte) (dataInt16 : list Z) :
  int16_view bytes = inr dataInt16 ->
  Forall (fun x => -32768 <= x <= 32767)%Z dataInt16.
Proof.
  revert dataInt16.
  induction bytes as [| x | x y r IH] using list_ind2;
    intros dataInt16 H; cbn [int16_view] in H.
  - injection H as <-. constructor.
  - discriminate.
  - destruct (int16_view r) as [e|v]; [discriminate|].
    injection H as <-. constructor; [apply wrap16_range | now apply IH].
Qed.

Lemma int16_view_length (bytes : list byte) (dataInt16 : list Z) :
  int16_view bytes = inr dataInt16 ->
  List.length bytes = 2 * List.length dataInt16.
Proof.
  revert dataInt16.
  induction bytes as [| x | x y r IH] using list_ind2;
    intros dataInt16 H; cbn [int16_view] in H.
  - now injection H as <-.
  - discriminate.
  - destruct (int16_view r) as [e|v]; [discriminate|].
    injection H as <-. cbn [List.length]. rewrite (IH v eq_refl). lia.
Qed.

Lemma frame_count (len nc : nat) :
  1 <= nc -> (Z.of_nat (len / nc) < 4294967296)%Z ->
  Z.to_nat (to_uint32 (js_div_nat len nc)) = len / nc.
Proof.
  intros Hnc Hlt. destruct nc as [|n]; [lia|].
  unfold js_div_nat, to_uint32, Qtrunc. cbn [Qnum Qden].
  replace (Z.pos (Pos.of_nat (S n))) with (Z.of_nat (S n)) by lia.
  rewrite Z.quot_div_nonneg by lia.
  rewrite <- Nat2Z.inj_div, Z.mod_small by lia.
  apply Nat2Z.id.
Qed.

Lemma turns_enough (len nc : nat) :
  1 <= nc -> len / nc <= turns (js_div_nat len nc).
Proof.
  intros Hnc. destruct nc as [|n]; [lia|].
  unfold js_div_nat, turns.
  pose proof (Qle_floor_ceiling (Z.of_nat len # Pos.of_nat (S n))) as H.
  rewrite <- Zle_Qle in H. cbn [Qfloor] in H.
  replace (Z.pos (Pos.of_nat (S n))) with (Z.of_nat (S n)) in H by lia.
  rewrite <- Nat2Z.inj_div in H. lia.
Qed.

Lemma array_set_past_end (A : Type) (i : nat) (v : A) (a : list A) :
  List.length a <= i -> array_set i v a = a.
Proof.
  revert i. induction a as [|x a IH]; intros [|i] H; cbn in *; try reflexivity; try lia.
  f_equal. apply IH. lia.
Qed.

Lemma Forall_array_set (A : Type) (P : A -> Prop) (i : nat) (v : A) (a : list A) :
  P v -> Forall P a -> Forall P (array_set i v a).
Proof.
  intros Hv H. revert i.
  induction H as [|x a Hx Ha IH]; intros [|i]; cbn [array_set]; auto.
Qed.

Lemma Forall_fill (A : Type) (P : A -> Prop) (n : nat) (f : nat -> A) (a : list A) :
  (forall i, P (f i)) -> Forall P a -> Forall P (fill n f a).
Proof.
  intros Hf Ha. induction n as [|n IH]; [exact Ha|].
  rewrite fill_S. now apply Forall_array_set.
Qed.

(** The channel loop: every channel of [frames] samples is overwritten by
    an inner loop of at least [frames] turns. *)
Lemma channel_loop (frames count n : nat) (f : nat -> nat -> JsNumber)
    (chs : list (list JsNumber)) :
  frames <= count ->
  Forall (fun ch => List.length ch = frames) chs ->
  fold_left
    (fun chs channel =>
       match nth_error chs channel with
       | Some channelData => array_set channel (fill count (f channel) channelData) chs
       | None => chs
       end)
    (seq 0 n) chs
  = fill n (fun channel => map (f channel) (seq 0 frames)) chs.
Proof.
  intros Hc Hall. induction n as [|n IH]; [reflexivity|].
  rewrite fill_S, seq_S, fold_left_app, IH. cbn [fold_left Nat.add].
  set (cur := fill n (fun channel => map (f channel) (seq 0 frames)) chs).
  assert (Hcur : Forall (fun ch => List.length ch = frames) cur).
  { apply Forall_fill; [|exact Hall].
    intro i. now rewrite length_map, length_seq. }
  destruct (nth_error cur n) as [channelData|] eqn:E.
  - f_equal.
    assert (L : List.length channelData = frames).
    { rewrite Forall_forall in Hcur. eapply Hcur, nth_error_In, E. }
    rewrite fill_all by lia. now rewrite L.
  - apply nth_error_None in E. symmetry. now apply array_set_past_end.
Qed.

Lemma decodeAudioData_value (bytes : list byte) (rate : positive) (nc : nat)
    (dataInt16 : list Z) :
  int16_view bytes = inr dataInt16 ->
  1 <= nc ->
  1 <= List.length dataInt16 / nc ->
  (Z.of_nat (List.length dataInt16 / nc) < 4294967296)%Z ->
  decodeAudioData bytes rate nc =
  inr {| frames := List.length dataInt16 / nc;
         sampleRate := rate;
         channels :=
           map (fun channel =>
                  map (fun i => sample_at dataInt16 (i * nc + channel))
                      (seq 0 (List.length dataInt16 / nc)))
               (seq 0 nc) |}.
Proof.
  intros Hv Hnc Hf Hlt. unfold decodeAudioData. rewrite Hv. cbv zeta.
  unfold createBuffer. rewrite frame_count by assumption.
  destruct (Nat.eqb_spec nc 0) as [|_]; [lia|].
  destruct (Nat.eqb_spec (List.length dataInt16 / nc) 0) as [|_]; [lia|].
  cbn [orb frames sampleRate channels]. do 2 f_equal.
  rewrite (channel_loop (List.length dataInt16 / nc)).
  - rewrite fill_all by (rewrite repeat_length; lia).
    now rewrite repeat_length.
  - now apply turns_enough.
  - apply Forall_forall. intros ch Hch.
    apply repeat_spec in Hch. subst ch. apply repeat_length.
Qed.

(** C5, amended.  [decodeAudioData] has no layout check.  For an even number
    of bytes, at least one channel and at least one whole frame, it returns
    a buffer of [floor (samples / channels)] frames; channel [c] holds at
    index [i] the sample [i * channels + c] divided by 32768, a value of
    [[-1, 1)].  The samples of an incomplete last frame are dropped. *)
Theorem decodeAudioData_deinterleaves (bytes : list byte) (rate : positive)
    (nc : nat) (dataInt16 : list Z) :
  int16_view bytes = inr dataInt16 ->
  1 <= nc ->
  1 <= List.length dataInt16 / nc ->
  (Z.of_nat (List.length dataInt16 / nc) < 4294967296)%Z ->
  exists buffer : AudioBuffer,
    decodeAudioData bytes rate nc = inr buffer
    /\ frames buffer = List.length dataInt16 / nc
    /\ List.length (channels buffer) = nc
    /\ forall channel, channel < nc ->
        exists channelData,
          nth_error (channels buffer) channel = Some channelData
          /\ List.length channelData = List.length dataInt16 / nc
          /\ forall i, i < List.length dataInt16 / nc ->
              exists x : Z,
                nth_error dataInt16 (i * nc + channel) = Some x
                /\ nth_error channelData i = Some (Num (x # 32768))
                /\ (-1 <= x # 32768)%Q /\ (x # 32768 < 1)%Q.
Proof.
  intros Hv Hnc Hf Hlt.
  eexists. split; [apply (decodeAudioData_value bytes rate nc dataInt16 Hv Hnc Hf Hlt)|].
  cbn [frames channels]. split; [reflexivity|].
  split; [now rewrite length_map, length_seq|].
  intros channel Hch. eexists. split; [|split].
  - rewrite nth_error_map, nth_error_seq.
    replace (channel <? nc) with true by (symmetry; apply Nat.ltb_lt; lia).
    reflexivity.
  - now rewrite length_map, length_seq.
  - intros i Hi.
    assert (Hk : i * nc + channel < List.length dataInt16).
    { pose proof (Nat.div_mod_eq (List.length dataInt16) nc). nia. }
    destruct (nth_error dataInt16 (i * nc + channel)) as [x|] eqn:E;
      [|apply nth_error_None in E; lia].
    exists x. split; [reflexivity|]. split.
    + rewrite nth_error_map, nth_error_seq.
      replace (i <? List.length dataInt16 / nc) with true
        by (symmetry; apply Nat.ltb_lt; lia).
      cbn [option_map Nat.add]. unfold sample_at. now rewrite E.
    + pose proof (int16_view_range bytes dataInt16 Hv) as R.
      rewrite Forall_forall in R. specialize (R x (nth_error_In _ _ E)).
      unfold Qle, Qlt. cbn. lia.
Qed.

(** Three samples for two channels: one frame, the third sample dropped. *)
Lemma decodeAudioData_deinterleaves_witness :
  exists buffer : AudioBuffer,
    decodeAudioData [x00; x80; xff; x7f; x01; x00] 24000 2 = inr buffer
    /\ frames buffer = 1
    /\ List.length (channels buffer) = 2
    /\ forall channel, channel < 2 ->
        exists channelData,
          nth_error (channels buffer) channel = Some channelData
          /\ List.length channelData = 1
          /\ forall i, i < 1 ->
              exists x : Z,
                nth_error [-32768; 32767; 1]%Z (i * 2 + channel) = Some x
                /\ nth_error channelData i = Some (Num (x # 32768))
                /\ (-1 <= x # 32768)%Q /\ (x # 32768 < 1)%Q.
Proof.
  apply (decodeAudioData_deinterleaves [x00; x80; xff; x7f; x01; x00]
           24000 2 [-32768; 32767; 1]%Z).
  - reflexivity.
  - lia.
  - cbn. lia.
  - cbn. lia.
Defined.

(** C5, as stated, fails: three samples are not a multiple of two channels,
    and the call returns a buffer instead of failing. *)
Lemma decodeAudioData_accepts_ragged_input :
  int16_view [x00; x80; xff; x7f; x01; x00] = inr [-32768; 32767; 1]%Z
  /\ List.length [-32768; 32767; 1]%Z mod 2 <> 0
  /\ decodeAudioData [x00; x80; xff; x7f; x01; x00] 24000 2 =
     inr {| frames := 1; sampleRate := 24000;
            channels := [[Num (-32768 # 32768)]; [Num (32767 # 32768)]] |}.
Proof.
  split; [reflexivity|]. split; [cbn; lia|]. reflexivity.
Qed.

(** *** The shape of the text [encode] produces *)

Lemma btoa_list_length (l : list ascii) :
  List.length (Base64.btoa_list l) = 4 * ((List.length l + 2) / 3).
Proof.
  unfold Base64.btoa_list.
  induction l as [| x | x y | x y z r IH] using Base64Facts.list_ind3.
  - reflexivity.
  - reflexivity.
  - reflexivity.
  - rewrite length_app, length_map in *.
    replace (Base64.padding (List.length (x :: y :: z :: r)))
      with (Base64.padding (List.length r)).
    + cbn [Base64.sextets List.length].
      replace (S (S (S (List.length r))) + 2) with (List.length r + 2 + 1 * 3) by lia.
      rewrite Nat.div_add by lia. lia.
    + unfold Base64.padding. cbn [List.length].
      replace (S (S (S (List.length r)))) with (List.length r + 1 * 3) by lia.
      now rewrite Nat.Div0.mod_add.
Qed.

Lemma length_string_of_list (l : list ascii) :
  String.length (string_of_list_ascii l) = List.length l.
Proof. induction l as [|c l IH]; cbn; auto. Qed.

Lemma enc6_in_alphabet (n : N) : (n < 64)%N -> In (Base64.enc6 n) Base64.alphabet.
Proof.
  intro H. unfold Base64.enc6. apply nth_In.
  change (List.length Base64.alphabet) with 64. lia.
Qed.

Lemma encode_as_btoa (bytes : list byte) :
  encode bytes =
  string_of_list_ascii (Base64.btoa_list (map ascii_of_byte bytes)).
Proof.
  unfold encode. rewrite binary_string. cbn [String.append].
  unfold Base64.btoa. now rewrite list_ascii_of_string_of_list_ascii.
Qed.

(** X1.  The text [encode] returns for [n] bytes has [4 * ceil (n / 3)]
    characters, each one a letter of the Base64 alphabet or the padding
    character: no line break, no whitespace. *)
Theorem encode_shape (bytes : list byte) :
  String.length (encode bytes) = 4 * ((List.length bytes + 2) / 3)
  /\ Forall (fun c => In c Base64.alphabet \/ c = Base64.pad_char)
            (list_ascii_of_string (encode bytes)).
Proof.
  rewrite encode_as_btoa. split.
  - now rewrite length_string_of_list, btoa_list_length, length_map.
  - rewrite list_ascii_of_string_of_list_ascii. unfold Base64.btoa_list.
    apply Forall_app. split.
    + apply Forall_map. eapply Forall_impl; [|apply Base64Facts.sextets_bound].
      cbn beta. intros n Hn. left. now apply enc6_in_alphabet.
    + unfold Base64.padding.
      destruct (List.length (map ascii_of_byte bytes) mod 3) as [|[|[|k]]];
        repeat (apply Forall_cons; [right; reflexivity|]); apply Forall_nil.
Qed.

(** *** What [decode] refuses *)

Lemma strip_padding_split (l : list ascii) :
  exists tail : list ascii,
    l = Base64.strip_padding l ++ tail /\ Forall (eq Base64.pad_char) tail.
Proof.
  unfold Base64.strip_padding.
  destruct (rev l) as [|p [|q r]] eqn:E.
  - exists []. now rewrite app_nil_r.
  - destruct (Ascii.eqb_spec p Base64.pad_char) as [->|_].
    + exists [Base64.pad_char]. split; [|repeat constructor].
      apply (f_equal (@rev ascii)) in E. now rewrite rev_involutive in E.
    + exists []. now rewrite app_nil_r.
  - destruct (Ascii.eqb_spec p Base64.pad_char) as [->|_].
    + apply (f_equal (@rev ascii)) in E. rewrite rev_involutive in E.
      cbn [rev] in E. rewrite <- !app_assoc in E. cbn [app] in E.
      destruct (Ascii.eqb_spec q Base64.pad_char) as [->|_].
      * exists [Base64.pad_char; Base64.pad_char]. split; [exact E|repeat constructor].
      * exists [Base64.pad_char]. split; [|repeat constructor].
        cbn [rev]. now rewrite <- app_assoc.
    + exists []. now rewrite app_nil_r.
Qed.

Lemma all_dec6_invalid (l : list ascii) (c : ascii) :
  In c l -> Base64.dec6 c = None -> Base64.all_dec6 l = None.
Proof.
  induction l as [|x l IH]; intros Hin Hc; [destruct Hin|].
  cbn [Base64.all_dec6]. destruct Hin as [->|Hin].
  - now rewrite Hc.
  - rewrite (IH Hin Hc). now destruct (Base64.dec6 x).
Qed.

(** X2.  [decode] raises [InvalidCharacterError] on every text that holds a
    character which is no letter of the Base64 alphabet, no ASCII
    whitespace and not the padding character, wherever it stands. *)
Theorem decode_rejects_foreign_character (base64 : string) (c : ascii) :
  In c (list_ascii_of_string base64) ->
  Base64.dec6 c = None ->
  Base64.is_ascii_whitespace c = false ->
  c <> Base64.pad_char ->
  decode base64 = inl InvalidCharacterError.
Proof.
  intros Hin Hdec Hws Hpad. unfold decode, Base64.atob, Base64.atob_list.
  set (d1 := filter _ _).
  assert (H1 : In c d1).
  { subst d1. apply filter_In. split; [exact Hin | now rewrite Hws]. }
  assert (H2 : In c (Base64.strip_padding d1)).
  { destruct (strip_padding_split d1) as [tail [E T]].
    rewrite E in H1. apply in_app_or in H1. destruct H1 as [H1|H1]; [exact H1|].
    rewrite Forall_forall in T. exfalso. apply Hpad. symmetry. apply T, H1. }
  cbv zeta.
  destruct (List.length d1 mod 4 =? 0).
  - destruct (_ =? 1); [reflexivity|].
    now rewrite (all_dec6_invalid _ c H2 Hdec).
  - destruct (_ =? 1); [reflexivity|].
    now rewrite (all_dec6_invalid _ c H1 Hdec).
Qed.

(** A chunk with a hyphen of the URL-safe alphabet in it. *)
Lemma decode_rejects_foreign_character_witness :
  decode "AA-A" = inl InvalidCharacterError.
Proof.
  apply (decode_rejects_foreign_character "AA-A" "-"%char).
  - cbn. auto.
  - reflexivity.
  - reflexivity.
  - discriminate.
Defined.

(** *** From [createBlob] back to a playback buffer *)

Lemma decode_encode_bytes (b : list byte) : decode (encode b) = inr b.
Proof.
  unfold decode, encode. rewrite binary_string. cbn [String.append].
  rewrite Base64Facts.atob_btoa, decode_bytes.
  rewrite list_ascii_of_string_of_list_ascii, map_map.
  f_equal. rewrite <- (map_id b) at 2.
  apply map_ext. intro x. apply byte_of_ascii_of_byte.
Qed.

Lemma to_int16_range (x : JsNumber) : (-32768 <= to_int16 x <= 32767)%Z.
Proof. destruct x; cbn [to_int16]; try lia. apply wrap16_range. Qed.

Lemma floatToPcm16_range (samples : list JsNumber) :
  Forall (fun x => -32768 <= x <= 32767)%Z (floatToPcm16 samples).
Proof.
  rewrite floatToPcm16_map. apply Forall_map, Forall_forall.
  intros x _. apply to_int16_range.
Qed.

Lemma pcm_sample_exact (k : Z) :
  (-32768 <= k <= 32767)%Z -> to_int16 (scale (Num (k # 32768))) = k.
Proof.
  intro H. cbn [scale to_int16]. unfold Qtrunc. cbn [Qmult Qnum Qden].
  change (Z.pos (32768 * 1)) with 32768%Z.
  rewrite Z.quot_mul by lia. now apply wrap16_small.
Qed.

Lemma mono_value (bytes : list byte) (rate : positive) (dataInt16 : list Z) :
  int16_view bytes = inr dataInt16 ->
  dataInt16 <> [] ->
  (Z.of_nat (List.length dataInt16) < 4294967296)%Z ->
  decodeAudioData bytes rate 1 =
  inr {| frames := List.length dataInt16; sampleRate := rate;
         channels := [map (fun x => Num (x # 32768)) dataInt16] |}.
Proof.
  intros Hv Hne Hlt.
  assert (Hlen : 1 <= List.length dataInt16).
  { destruct dataInt16; [contradiction | cbn; lia]. }
  rewrite (decodeAudioData_value bytes rate 1 dataInt16 Hv);
    rewrite ?Nat.div_1_r; try lia.
  cbn [seq map]. do 3 f_equal.
  rewrite <- (map_seq_nth_error _ _ (fun x => Num (x # 32768)) NaN dataInt16).
  apply map_ext. intro i. unfold sample_at.
  now rewrite Nat.mul_1_r, Nat.add_0_r.
Qed.

(** X3.  What [createBlob] sends reads back: [decode] returns two bytes per
    sample, the 16-bit view of them is the converted samples, and
    [decodeAudioData] in mono makes of them a buffer of as many frames, whose
    sample [i] is the 16-bit conversion of sample [i] divided by 32768. *)
Theorem createBlob_reads_back (samples : list JsNumber) (rate : positive) :
  samples <> [] ->
  (Z.of_nat (List.length samples) < 4294967296)%Z ->
  exists bytes : list byte,
    decode (data (createBlob samples)) = inr bytes
    /\ List.length bytes = 2 * List.length samples
    /\ int16_view bytes = inr (floatToPcm16 samples)
    /\ decodeAudioData bytes rate 1 =
       inr {| frames := List.length samples; sampleRate := rate;
              channels := [map (fun f => Num (to_int16 (scale f) # 32768)) samples] |}.
Proof.
  intros Hne Hlt. exists (uint8_view (floatToPcm16 samples)).
  assert (Hv : int16_view (uint8_view (floatToPcm16 samples)) = inr (floatToPcm16 samples))
    by apply int16_view_uint8_view, floatToPcm16_range.
  assert (Hl : List.length (floatToPcm16 samples) = List.length samples)
    by (rewrite floatToPcm16_map; apply length_map).
  split; [apply decode_encode_bytes|]. split; [|split; [exact Hv|]].
  - rewrite (int16_view_length _ _ Hv). now rewrite Hl.
  - rewrite (mono_value _ rate _ Hv).
    + rewrite Hl. do 3 f_equal. rewrite floatToPcm16_map. apply map_map.
    + intro E. apply Hne. apply length_zero_iff_nil. rewrite <- Hl, E. reflexivity.
    + now rewrite Hl.
Qed.

Lemma createBlob_reads_back_witness :
  exists bytes : list byte,
    decode (data (createBlob [Num (1 # 2); Num 1])) = inr bytes
    /\ List.length bytes = 2 * List.length [Num (1 # 2); Num 1]
    /\ int16_view bytes = inr (floatToPcm16 [Num (1 # 2); Num 1])
    /\ decodeAudioData bytes 24000 1 =
       inr {| frames := List.length [Num (1 # 2); Num 1]; sampleRate := 24000;
              channels := [map (fun f => Num (to_int16 (scale f) # 32768))
                               [Num (1 # 2); Num 1]] |}.
Proof.
  apply (createBlob_reads_back [Num (1 # 2); Num 1] 24000).
  - discriminate.
  - cbn. lia.
Defined.

(** X4.  Samples that are whole multiples of 1/32768 in [[-1, 1)], the
    values a playback buffer holds, survive the loop unchanged: sent with
    [createBlob] and decoded in mono, they come back as they were. *)
Theorem pcm_samples_round_trip (ks : list Z) (rate : positive) :
  ks <> [] ->
  Forall (fun k => -32768 <= k <= 32767)%Z ks ->
  (Z.of_nat (List.length ks) < 4294967296)%Z ->
  exists bytes : list byte,
    decode (data (createBlob (map (fun k => Num (k # 32768)) ks))) = inr bytes
    /\ decodeAudioData bytes rate 1 =
       inr {| frames := List.length ks; sampleRate := rate;
              channels := [map (fun k => Num (k # 32768)) ks] |}.
Proof.
  intros Hne Hr Hlt.
  set (samples := map (fun k => Num (k # 32768)) ks).
  assert (E : floatToPcm16 samples = ks).
  { subst samples. rewrite floatToPcm16_map, map_map.
    rewrite <- (map_id ks) at 2. apply map_ext_in. intros k Hk.
    apply pcm_sample_exact. rewrite Forall_forall in Hr. now apply Hr. }
  exists (uint8_view ks).
  split.
  - unfold createBlob. cbn [data]. rewrite E. apply decode_encode_bytes.
  - apply mono_value; try assumption.
    now apply int16_view_uint8_view.
Qed.

Lemma pcm_samples_round_trip_witness :
  exists bytes : list byte,
    decode (data (createBlob (map (fun k => Num (k # 32768)) [-32768; 0; 32767]%Z)))
      = inr bytes
    /\ decodeAudioData bytes 24000 1 =
       inr {| frames := List.length [-32768; 0; 32767]%Z; sampleRate := 24000;
              channels := [map (fun k => Num (k # 32768)) [-32768; 0; 32767]%Z] |}.
Proof.
  apply (pcm_samples_round_trip [-32768; 0; 32767]%Z 24000).
  - discriminate.
  - repeat (apply Forall_cons; [lia|]). apply Forall_nil.
  - cbn. lia.
Defined.

(** *** What [decodeAudioData] refuses *)

Lemma int16_view_parity (bytes : list byte) :
  (Nat.odd (List.length bytes) = true -> int16_view bytes = inl RangeError)
  /\ (Nat.even (List.length bytes) = true ->
      exists dataInt16, int16_view bytes = inr dataInt16
                        /\ List.length dataInt16 = List.length bytes / 2).
Proof.
  induction bytes as [| x | x y r [IHo IHe]] using list_ind2.
  - split; [discriminate|]. intros _. exists []. split; reflexivity.
  - split; [reflexivity | discriminate].
  - cbn [List.length]. repeat (rewrite Nat.odd_succ || rewrite Nat.even_succ).
    split.
    + intro H. cbn [int16_view]. now rewrite (IHo H).
    + intro H. destruct (IHe H) as [l [E L]]. cbn [int16_view]. rewrite E.
      eexists. split; [reflexivity|]. cbn [List.length]. rewrite L.
      replace (S (S (List.length r))) with (List.length r + 1 * 2) by lia.
      rewrite Nat.div_add by lia. lia.
Qed.

(** X5.  [decodeAudioData] raises [RangeError] on every odd number of
    bytes, whatever the channel count.  On an even number it raises
    [NotSupportedError] when there is no channel or when the samples do not
    fill one frame; an empty chunk is such a case. *)
Theorem decodeAudioData_errors (bytes : list byte) (rate : positive) (nc : nat) :
  (Nat.odd (List.length bytes) = true ->
   decodeAudioData bytes rate nc = inl RangeError)
  /\ (Nat.even (List.length bytes) = true ->
      nc = 0 \/ List.length bytes / 2 < nc ->
      decodeAudioData bytes rate nc = inl NotSupportedError).
Proof.
  destruct (int16_view_parity bytes) as [Ho He]. split.
  - intro H. unfold decodeAudioData. now rewrite (Ho H).
  - intros H Hc. destruct (He H) as [l [E L]].
    unfold decodeAudioData. rewrite E. cbv zeta. rewrite L.
    unfold createBuffer.
    destruct nc as [|n]; [reflexivity|].
    destruct Hc as [Hc|Hc]; [discriminate|].
    cbn [Nat.eqb orb js_div_nat to_uint32]. unfold Qtrunc. cbn [Qnum Qden].
    rewrite Z.quot_small by lia. reflexivity.
Qed.

(** One stray byte, and an empty chunk. *)
Lemma decodeAudioData_errors_witness :
  decodeAudioData [x01] 24000 1 = inl RangeError
  /\ decodeAudioData [] 24000 1 = inl NotSupportedError.
Proof.
  split.
  - apply (decodeAudioData_errors [x01] 24000 1). reflexivity.
  - apply (decodeAudioData_errors [] 24000 1); [reflexivity | right; cbn; lia].
Defined.

End CodecFacts.

(** ** The live session *)

Module LiveFacts.

Import Codec Live.
Local Open Scope list_scope.
Local Open Scope nat_scope.

Lemma bind_value (A B : Type) (m : M A) (f : A -> M B) (st st1 : State)
    (a : A) (t1 : list Effect) :
  m st = (inr a, st1, t1) ->
  bind m f st = (let '(r, st2, t2) := f a st1 in (r, st2, t1 ++ t2)).
Proof. intro H. unfold bind. now rewrite H. Qed.

Lemma for_each_emit (A : Type) (f : A -> Effect) (xs : list A) (st : State) :
  for_each xs (fun x => emit (f x)) st = (inr tt, st, map f xs).
Proof.
  induction xs as [|x r IH]; [reflexivity|].
  cbn [for_each map]. unfold bind at 1. cbn. now rewrite IH.
Qed.

Lemma for_each_stop (xs : list Source) (st : State) :
  for_each xs (fun s => try_catch (emit (SourceStop s)) (fun _ => ret tt)) st
  = (inr tt, st, map SourceStop xs).
Proof.
  induction xs as [|x r IH]; [reflexivity|].
  cbn [for_each map]. unfold bind at 1. cbn. now rewrite IH.
Qed.

Lemma flush_sources_value (st : State) :
  flush_sources st =
  (inr tt,
   {| isListening := isListening st; liveStatus := liveStatus st;
      error := error st; inputAudioContextRef := inputAudioContextRef st;
      outputAudioContextRef := outputAudioContextRef st;
      nextStartTimeRef := 0%Q; sourcesRef := [];
      streamRef := streamRef st; sessionRef := sessionRef st;
      fresh := fresh st |},
   map SourceStop (sourcesRef st)).
Proof.
  unfold flush_sources. unfold bind at 1. cbn [get].
  unfold bind at 1. rewrite for_each_stop.
  cbn. now rewrite app_nil_r.
Qed.

Lemma stopListening_value (st : State) :
  stopListening st = (inr tt, stopped st, teardown st).
Proof.
  destruct st as [l s e ic oc c srcs str ses fr].
  unfold stopListening, teardown, stopped.
  destruct str as [tracks|], ic as [i|], oc as [o|], ses as [ss|];
    cbn -[for_each flush_sources];
    unfold bind; cbn -[for_each flush_sources];
    rewrite ?for_each_emit; cbn -[flush_sources];
    rewrite flush_sources_value; cbn;
    rewrite ?app_nil_r; reflexivity.
Qed.

(** *** The three blocks of [onmessage] *)

Lemma announce_value (m : LiveServerMessage) (st : State) :
  announce m st =
  (inr tt,
   if has_modelTurn m then with_liveStatus SPEAKING st
   else if has_turnComplete m then with_liveStatus LISTENING st
   else st,
   []).
Proof.
  unfold announce. destruct (has_modelTurn m), (has_turnComplete m); reflexivity.
Qed.

Lemma play_audio_raises (now : Q) (m : LiveServerMessage) (st : State) (e : JsError) :
  base64Audio m = inl e -> play_audio now m st = (inl e, st, []).
Proof. intro H. unfold play_audio, bind. rewrite H. reflexivity. Qed.

Lemma play_audio_nothing (now : Q) (m : LiveServerMessage) (st : State)
    (a : option string) :
  base64Audio m = inr a -> truthy a = None ->
  play_audio now m st = (inr tt, st, []).
Proof.
  intros H T. unfold play_audio, bind. rewrite H. cbn. rewrite T. reflexivity.
Qed.

Lemma play_audio_undecodable (now : Q) (m : LiveServerMessage) (st : State)
    (a : option string) (b64 : string) (e : JsError) :
  base64Audio m = inr a -> truthy a = Some b64 -> audio_chunk b64 = inl e ->
  play_audio now m st =
  (inl e, with_nextStartTimeRef (Qmax (nextStartTimeRef st) now) st, []).
Proof.
  intros H T D. unfold play_audio, bind. rewrite H. cbn. rewrite T. cbn.
  rewrite D. reflexivity.
Qed.

Lemma play_audio_schedules (now : Q) (m : LiveServerMessage) (st : State)
    (a : option string) (b64 : string) (audioBuffer : AudioBuffer) :
  base64Audio m = inr a -> truthy a = Some b64 ->
  audio_chunk b64 = inr audioBuffer ->
  play_audio now m st =
  (inr tt,
   {| isListening := isListening st; liveStatus := liveStatus st;
      error := error st; inputAudioContextRef := inputAudioContextRef st;
      outputAudioContextRef := outputAudioContextRef st;
      nextStartTimeRef := (Qmax (nextStartTimeRef st) now + duration audioBuffer)%Q;
      sourcesRef := set_add (fresh st) (sourcesRef st);
      streamRef := streamRef st; sessionRef := sessionRef st;
      fresh := S (fresh st) |},
   [SourceStart (fresh st) (Qmax (nextStartTimeRef st) now) audioBuffer]).
Proof.
  intros H T D. unfold play_audio, bind. rewrite H. cbn. rewrite T. cbn.
  rewrite D. reflexivity.
Qed.

Lemma handle_interrupted_value (m : LiveServerMessage) (st : State) :
  handle_interrupted m st =
  if has_interrupted m
  then (inr tt,
        {| isListening := isListening st; liveStatus := LISTENING;
           error := error st; inputAudioContextRef := inputAudioContextRef st;
           outputAudioContextRef := outputAudioContextRef st;
           nextStartTimeRef := 0%Q; sourcesRef := [];
           streamRef := streamRef st; sessionRef := sessionRef st;
           fresh := fresh st |},
        map SourceStop (sourcesRef st))
  else (inr tt, st, []).
Proof.
  unfold handle_interrupted. destruct (has_interrupted m); [|reflexivity].
  cbn [when]. unfold bind. rewrite flush_sources_value. cbn.
  now rewrite app_nil_r.
Qed.


(** *** Interruption *)




(** *** Scheduling *)

Lemma Qmax_cursor (cursor now : Q) : (now <= cursor)%Q -> Qmax cursor now = cursor.
Proof.
  intro H. unfold Qmax, GenericMinMax.gmax.
  destruct (cursor ?= now)%Q eqn:C; try reflexivity.
  apply Qlt_alt in C. exfalso. exact (Qle_not_lt _ _ H C).
Qed.

Lemma onmessage_schedules (now : Q) (m : LiveServerMessage) (st : State)
    (audioBuffer : AudioBuffer) :
  chunk_of m = Some audioBuffer ->
  has_interrupted m = false ->
  onmessage now m st =
  (inr tt,
   {| isListening := isListening st; liveStatus := SPEAKING;
      error := error st; inputAudioContextRef := inputAudioContextRef st;
      outputAudioContextRef := outputAudioContextRef st;
      nextStartTimeRef := (Qmax (nextStartTimeRef st) now + duration audioBuffer)%Q;
      sourcesRef := set_add (fresh st) (sourcesRef st);
      streamRef := streamRef st; sessionRef := sessionRef st;
      fresh := S (fresh st) |},
   [SourceStart (fresh st) (Qmax (nextStartTimeRef st) now) audioBuffer]).
Proof.
  intros Hc Hi. unfold chunk_of in Hc.
  destruct (base64Audio m) as [e|a] eqn:B; [discriminate|].
  destruct (truthy a) as [b64|] eqn:T; [|discriminate].
  destruct (audio_chunk b64) as [e|buf] eqn:D; [discriminate|].
  injection Hc as ->.
  assert (Hm : has_modelTurn m = true).
  { unfold base64Audio in B. unfold has_modelTurn.
    destruct (serverContent m) as [sc|]; [|injection B as <-; discriminate].
    destruct (modelTurn sc); [reflexivity | injection B as <-; discriminate]. }
  unfold onmessage.
  rewrite (bind_value _ _ _ _ _ _ _ _ (announce_value m st)), Hm.
  rewrite (bind_value _ _ _ _ _ _ _ _
             (play_audio_schedules now m _ a b64 audioBuffer B T D)).
  rewrite handle_interrupted_value, Hi. reflexivity.
Qed.

(** C2.  A message whose audio chunk decodes starts its buffer at the
    larger of the cursor and the output clock and moves the cursor to that
    start plus the duration of the buffer.  Hence, of two chunks handled
    one after the other, the second arriving while the clock is not past
    the cursor, the second starts exactly where the first ends. *)
Theorem gapless_scheduling (st : State) (now1 now2 : Q)
    (m1 m2 : LiveServerMessage) (buf1 buf2 : AudioBuffer) :
  chunk_of m1 = Some buf1 -> has_interrupted m1 = false ->
  chunk_of m2 = Some buf2 -> has_interrupted m2 = false ->
  let st1 := state_after (onmessage now1 m1 st) in
  let start1 := Qmax (nextStartTimeRef st) now1 in
  let start2 := Qmax (nextStartTimeRef st1) now2 in
  effects_of (onmessage now1 m1 st) = [SourceStart (fresh st) start1 buf1]
  /\ nextStartTimeRef st1 = (start1 + duration buf1)%Q
  /\ effects_of (onmessage now2 m2 st1) = [SourceStart (S (fresh st)) start2 buf2]
  /\ nextStartTimeRef (state_after (onmessage now2 m2 st1)) = (start2 + duration buf2)%Q
  /\ ((now2 <= nextStartTimeRef st1)%Q -> start2 = (start1 + duration buf1)%Q).
Proof.
  intros C1 I1 C2 I2 st1 start1 start2. subst st1 start1 start2.
  rewrite (onmessage_schedules now1 m1 st buf1 C1 I1).
  cbn [state_after effects_of fst snd nextStartTimeRef].
  rewrite (onmessage_schedules now2 m2 _ buf2 C2 I2).
  cbn [state_after effects_of fst snd nextStartTimeRef fresh].
  repeat split. intro H. now apply Qmax_cursor.
Qed.

(** Two chunks of one sample each, both arriving at time 0. *)
Lemma gapless_scheduling_witness :
  let st1 := state_after (onmessage 0%Q (audio_message silence) started) in
  let start1 := Qmax (nextStartTimeRef started) 0%Q in
  let start2 := Qmax (nextStartTimeRef st1) 0%Q in
  let buf := {| frames := 1; sampleRate := 24000; channels := [[Num (0 # 32768)]] |} in
  effects_of (onmessage 0%Q (audio_message silence) started)
    = [SourceStart (fresh started) start1 buf]
  /\ nextStartTimeRef st1 = (start1 + duration buf)%Q
  /\ effects_of (onmessage 0%Q (audio_message silence) st1)
     = [SourceStart (S (fresh started)) start2 buf]
  /\ nextStartTimeRef (state_after (onmessage 0%Q (audio_message silence) st1))
     = (start2 + duration buf)%Q
  /\ ((0 <= nextStartTimeRef st1)%Q -> start2 = (start1 + duration buf)%Q).
Proof.
  apply (gapless_scheduling started 0%Q 0%Q (audio_message silence) (audio_message silence)
           {| frames := 1; sampleRate := 24000; channels := [[Num (0 # 32768)]] |}
           {| frames := 1; sampleRate := 24000; channels := [[Num (0 # 32768)]] |});
    reflexivity.
Defined.

(** *** The status *)

Lemma bind_raise (A B : Type) (m : M A) (f : A -> M B) (st st1 : State)
    (e : JsError) (t1 : list Effect) :
  m st = (inl e, st1, t1) -> bind m f st = (inl e, st1, t1).
Proof. intro H. unfold bind. now rewrite H. Qed.

Lemma no_modelTurn_no_audio (m : LiveServerMessage) :
  has_modelTurn m = false -> base64Audio m = inr None.
Proof.
  unfold has_modelTurn, base64Audio.
  destruct (serverContent m) as [sc|]; [|reflexivity].
  destruct (modelTurn sc); [discriminate | reflexivity].
Qed.

(** C1, amended.  The status follows the events, not the active set.  A
    message with a model turn and no [interrupted] flag leaves the status
    SPEAKING, whether a buffer was scheduled or not.  A message with
    [turnComplete], no model turn and no [interrupted] flag sets the status
    to LISTENING at once and leaves the active set as it is.  While the
    session is open, the end of a buffer removes it from the active set and
    sets the status to LISTENING when the set is empty then; otherwise the
    status stays. *)
Theorem status_follows_events :
  (forall now m st,
     has_modelTurn m = true -> has_interrupted m = false ->
     liveStatus (state_after (onmessage now m st)) = SPEAKING)
  /\ (forall now m st,
       has_modelTurn m = false -> has_turnComplete m = true ->
       has_interrupted m = false ->
       onmessage now m st = (inr tt, with_liveStatus LISTENING st, []))
  /\ (forall s st,
       isListening st = true ->
       outcome_of (onended s st) = inr tt
       /\ sourcesRef (state_after (onended s st)) = set_delete s (sourcesRef st)
       /\ liveStatus (state_after (onended s st)) =
          match set_delete s (sourcesRef st) with
          | [] => LISTENING
          | _ :: _ => liveStatus st
          end).
Proof.
  split; [|split].
  - intros now m st Hm Hi. unfold onmessage.
    rewrite (bind_value _ _ _ _ _ _ _ _ (announce_value m st)), Hm.
    destruct (base64Audio m) as [e|a] eqn:B.
    { now rewrite (bind_raise _ _ _ _ _ _ _ _ (play_audio_raises now m _ e B)). }
    destruct (truthy a) as [b64|] eqn:T.
    + destruct (audio_chunk b64) as [e|buf] eqn:D.
      * now rewrite (bind_raise _ _ _ _ _ _ _ _
                       (play_audio_undecodable now m _ a b64 e B T D)).
      * rewrite (bind_value _ _ _ _ _ _ _ _
                   (play_audio_schedules now m _ a b64 buf B T D)).
        now rewrite handle_interrupted_value, Hi.
    + rewrite (bind_value _ _ _ _ _ _ _ _ (play_audio_nothing now m _ a B T)).
      now rewrite handle_interrupted_value, Hi.
  - intros now m st Hm Ht Hi. unfold onmessage.
    rewrite (bind_value _ _ _ _ _ _ _ _ (announce_value m st)), Hm, Ht.
    rewrite (bind_value _ _ _ _ _ _ _ _
               (play_audio_nothing now m _ None (no_modelTurn_no_audio m Hm) eq_refl)).
    now rewrite handle_interrupted_value, Hi.
  - intros s st _. destruct st as [l ls er ic oc c srcs str ses fr].
    unfold onended, bind. cbn -[set_delete].
    destruct (set_delete s srcs); cbn; repeat split.
Qed.

(** A chunk, then the end of the turn, then the end of the buffer. *)
Lemma status_follows_events_witness :
  liveStatus (state_after (onmessage 0%Q (audio_message silence) started)) = SPEAKING
  /\ onmessage 0%Q turn_complete_message playing =
     (inr tt, with_liveStatus LISTENING playing, [])
  /\ (outcome_of (onended 3 playing) = inr tt
      /\ sourcesRef (state_after (onended 3 playing)) = set_delete 3 (sourcesRef playing)
      /\ liveStatus (state_after (onended 3 playing)) =
         match set_delete 3 (sourcesRef playing) with
         | [] => LISTENING
         | _ :: _ => liveStatus playing
         end).
Proof.
  destruct status_follows_events as [H1 [H2 H3]].
  split; [|split].
  - apply (H1 0%Q (audio_message silence) started); reflexivity.
  - apply (H2 0%Q turn_complete_message playing); reflexivity.
  - apply (H3 3 playing). reflexivity.
Defined.

(** C1, as stated, fails: the end of the turn arrives while a buffer is
    still in the active set of an open session, and the status is
    LISTENING from then on. *)
Lemma turn_complete_while_playing :
  playing = run [Toggle (inr [7]); Message 0 (audio_message silence)] initial
  /\ isListening playing = true
  /\ liveStatus playing = SPEAKING
  /\ sourcesRef (step playing (Message 0 turn_complete_message)) = [3]
  /\ liveStatus (step playing (Message 0 turn_complete_message)) = LISTENING.
Proof. repeat split. Qed.

(** *** Teardown *)

(** C6, amended.  [stopListening] never raises, and it tears down in the
    order of its statements: the capture tracks are stopped first, then the
    input and the output audio context are closed, then every source of the
    active set is stopped, and the session is closed last.  Every ref is
    null afterwards, the active set is empty, the cursor is 0 and the
    status is IDLE. *)
Theorem stopListening_order (st : State) :
  outcome_of (stopListening st) = inr tt
  /\ state_after (stopListening st) = stopped st
  /\ effects_of (stopListening st) =
     map TrackStop (List.concat (option_list (streamRef st)))
     ++ map ContextClose (option_list (inputAudioContextRef st))
     ++ map ContextClose (option_list (outputAudioContextRef st))
     ++ map SourceStop (sourcesRef st)
     ++ map SessionClose (option_list (sessionRef st)).
Proof.
  rewrite stopListening_value. repeat split.
Qed.

(** C6, as stated, fails: with one buffer playing, the capture track and
    both audio contexts are released before the buffer is stopped. *)
Lemma stopListening_stops_capture_first :
  sourcesRef playing = [3]
  /\ effects_of (stopListening playing) =
     [TrackStop 7; ContextClose 0; ContextClose 1; SourceStop 3; SessionClose 2]
  /\ hd_error (effects_of (stopListening playing)) <> Some (SourceStop 3).
Proof.
  split; [reflexivity|]. split; [reflexivity|]. discriminate.
Qed.

(** C7.  [stopListening] is idempotent: it completes, and a second call
    right after the first completes too, leaves the state as the first call
    left it and has no effect on any device, buffer or session. *)
Theorem stopListening_idempotent (st : State) :
  outcome_of (stopListening st) = inr tt
  /\ stopListening (state_after (stopListening st)) =
     (inr tt, state_after (stopListening st), []).
Proof.
  rewrite !stopListening_value. split; reflexivity.
Qed.

(** *** A failed start *)

(** C8.  When [getUserMedia] rejects, whatever the error, a
    [toggleVoiceInput] on an idle session opens nothing: it ends with the
    status IDLE, not listening, the message "Microphone access is needed."
    in [error], every ref as it was and no effect. *)
Theorem failed_start_returns_to_idle (st : State) (e : JsError) :
  isListening st = false ->
  toggleVoiceInput (inl e) st =
  (inr tt,
   {| isListening := false; liveStatus := IDLE;
      error := Some "Microphone access is needed."%string;
      inputAudioContextRef := inputAudioContextRef st;
      outputAudioContextRef := outputAudioContextRef st;
      nextStartTimeRef := nextStartTimeRef st; sourcesRef := sourcesRef st;
      streamRef := streamRef st; sessionRef := sessionRef st;
      fresh := fresh st |},
   []).
Proof.
  intro H. destruct st as [l s er ic oc c srcs str ses fr].
  cbn in H. subst l. reflexivity.
Qed.

(** The user declines the microphone on a fresh page. *)
Lemma failed_start_returns_to_idle_witness :
  toggleVoiceInput (inl NotAllowedError) initial =
  (inr tt,
   {| isListening := false; liveStatus := IDLE;
      error := Some "Microphone access is needed."%string;
      inputAudioContextRef := None; outputAudioContextRef := None;
      nextStartTimeRef := 0%Q; sourcesRef := [];
      streamRef := None; sessionRef := None; fresh := 0 |},
   []).
Proof.
  apply (failed_start_returns_to_idle initial NotAllowedError). reflexivity.
Defined.

(** *** Every outcome of [onmessage] *)

(** Runs [onmessage] through its four outcomes: the payload cannot be read,
    there is none, it does not decode, it is scheduled. *)
Ltac onmessage_cases now m st :=
  unfold onmessage;
  rewrite (bind_value _ _ _ _ _ _ _ _ (announce_value m st));
  let e := fresh "e" in
  let a := fresh "a" in
  let b64 := fresh "b64" in
  let buf := fresh "buf" in
  let B := fresh "B" in
  let T := fresh "T" in
  let D := fresh "D" in
  destruct (base64Audio m) as [e|a] eqn:B;
  [ rewrite (bind_raise _ _ _ _ _ _ _ _ (play_audio_raises now m _ e B))
  | destruct (truthy a) as [b64|] eqn:T;
    [ destruct (audio_chunk b64) as [e|buf] eqn:D;
      [ rewrite (bind_raise _ _ _ _ _ _ _ _
                   (play_audio_undecodable now m _ a b64 e B T D))
      | rewrite (bind_value _ _ _ _ _ _ _ _
                   (play_audio_schedules now m _ a b64 buf B T D));
        rewrite handle_interrupted_value ]
    | rewrite (bind_value _ _ _ _ _ _ _ _ (play_audio_nothing now m _ a B T));
      rewrite handle_interrupted_value ] ].

Lemma audio_needs_modelTurn (m : LiveServerMessage) (a : option string)
    (b64 : string) :
  base64Audio m = inr a -> truthy a = Some b64 -> has_modelTurn m = true.
Proof.
  intros B T. destruct (has_modelTurn m) eqn:Hm; [reflexivity|].
  rewrite (no_modelTurn_no_audio m Hm) in B. injection B as <-. discriminate.
Qed.

(** X6.  A chunk that does not decode stops [onmessage] where it is: the
    handler raises the decoder's error and nothing is scheduled, stopped or
    removed, although the status is already SPEAKING and the cursor already
    at least the clock.  The [interrupted] flag of the same message is not
    looked at. *)
Theorem undecodable_chunk_aborts (now : Q) (m : LiveServerMessage) (st : State)
    (a : option string) (b64 : string) (e : JsError) :
  base64Audio m = inr a -> truthy a = Some b64 -> audio_chunk b64 = inl e ->
  onmessage now m st =
  (inl e,
   with_nextStartTimeRef (Qmax (nextStartTimeRef st) now)
     (with_liveStatus SPEAKING st),
   []).
Proof.
  intros B T D. unfold onmessage.
  rewrite (bind_value _ _ _ _ _ _ _ _ (announce_value m st)).
  rewrite (audio_needs_modelTurn m a b64 B T).
  now rewrite (bind_raise _ _ _ _ _ _ _ _
                 (play_audio_undecodable now m _ a b64 e B T D)).
Qed.

(** Three bytes are no whole number of 16-bit samples; the interruption the
    message asks for is lost and the buffer of [playing] stays. *)
Lemma undecodable_chunk_aborts_witness :
  onmessage 0
    {| serverContent := Some
         {| modelTurn := Some {| parts := Some
              [ {| inlineData := Some {| inline_data := Some "AAAA"%string |} |} ] |};
            turnComplete := false; interrupted := true |} |}
    playing =
  (inl RangeError,
   with_nextStartTimeRef (Qmax (nextStartTimeRef playing) 0)
     (with_liveStatus SPEAKING playing),
   []).
Proof.
  apply (undecodable_chunk_aborts 0%Q _ playing (Some "AAAA"%string) "AAAA"%string);
    reflexivity.
Defined.

(** *** Scheduling never goes back *)

Lemma duration_nonneg (b : AudioBuffer) : (0 <= duration b)%Q.
Proof. unfold duration, Qle. cbn. lia. Qed.

Lemma Qle_plus_nonneg (x d : Q) : (0 <= d)%Q -> (x <= x + d)%Q.
Proof.
  intro H. setoid_replace x with (x + 0)%Q at 1 by (symmetry; apply Qplus_0_r).
  apply Qplus_le_r, H.
Qed.

(** X7.  Whatever the message, a buffer [onmessage] starts gets the next
    unused handle, is the chunk of the message, and starts neither before
    the output clock nor before the cursor.  Without the [interrupted]
    flag, the cursor does not move back, whether the handler completes or
    raises. *)
Theorem scheduling_never_goes_back (now : Q) (m : LiveServerMessage) (st : State) :
  (forall s start buffer,
     In (SourceStart s start buffer) (effects_of (onmessage now m st)) ->
     s = fresh st /\ chunk_of m = Some buffer
     /\ (now <= start)%Q /\ (nextStartTimeRef st <= start)%Q)
  /\ (has_interrupted m = false ->
      (nextStartTimeRef st <= nextStartTimeRef (state_after (onmessage now m st)))%Q).
Proof.
  assert (C : nextStartTimeRef
                (if has_modelTurn m then with_liveStatus SPEAKING st
                 else if has_turnComplete m then with_liveStatus LISTENING st
                 else st) = nextStartTimeRef st
              /\ fresh (if has_modelTurn m then with_liveStatus SPEAKING st
                        else if has_turnComplete m then with_liveStatus LISTENING st
                        else st) = fresh st).
  { destruct (has_modelTurn m), (has_turnComplete m); split; reflexivity. }
  destruct C as [C F].
  split.
  - intros s start buffer.
    onmessage_cases now m st; cbn [effects_of snd app In];
      try (intros []; fail).
    + rewrite C, F. unfold chunk_of. rewrite B, T, D.
      destruct (has_interrupted m); cbn [app In];
        (intros [H|H];
         [ injection H as <- <- <-;
           repeat split; [apply Q.le_max_r | apply Q.le_max_l]
         | try contradiction ]).
      apply in_map_iff in H. destruct H as [x [H _]]. discriminate.
    + destruct (has_interrupted m); cbn [app In]; [|intros []].
      intro H. apply in_map_iff in H. destruct H as [x [H _]]. discriminate.
  - intro Hi.
    onmessage_cases now m st; rewrite ?Hi;
      cbn [state_after fst snd nextStartTimeRef with_nextStartTimeRef];
      rewrite ?C.
    + apply Qle_refl.
    + apply Q.le_max_l.
    + eapply Qle_trans; [apply Q.le_max_l | apply Qle_plus_nonneg, duration_nonneg].
    + apply Qle_refl.
Qed.

Lemma scheduling_never_goes_back_witness :
  3 = fresh started
  /\ chunk_of (audio_message silence)
     = Some {| frames := 1; sampleRate := 24000; channels := [[Num (0 # 32768)]] |}
  /\ (0 <= 0)%Q /\ (nextStartTimeRef started <= 0)%Q.
Proof.
  destruct (scheduling_never_goes_back 0%Q (audio_message silence) started) as [H _].
  apply (H 3 0%Q {| frames := 1; sampleRate := 24000;
                    channels := [[Num (0 # 32768)]] |}).
  left. reflexivity.
Defined.

(** *** Handles *)

Lemma failed_start_value (st : State) (e : JsError) :
  isListening st = false ->
  toggleVoiceInput (inl e) st =
  (inr tt,
   with_error (Some "Microphone access is needed."%string)
     (with_liveStatus IDLE (with_isListening false
        (with_error None (with_liveStatus LISTENING (with_isListening true st))))),
   []).
Proof.
  intro H. destruct st as [l s er ic oc c srcs str ses fr].
  cbn in H. subst l. reflexivity.
Qed.

Lemma toggle_start_value (tracks : list Track) (st : State) :
  isListening st = false ->
  toggleVoiceInput (inr tracks) st =
  (inr tt,
   {| isListening := true; liveStatus := LISTENING; error := None;
      inputAudioContextRef := Some (fresh st);
      outputAudioContextRef := Some (S (fresh st));
      nextStartTimeRef := nextStartTimeRef st; sourcesRef := sourcesRef st;
      streamRef := Some tracks; sessionRef := Some (S (S (fresh st)));
      fresh := S (S (S (fresh st))) |},
   []).
Proof.
  intro H. destruct st as [l s er ic oc c srcs str ses fr].
  cbn in H. subst l. reflexivity.
Qed.

Lemma toggle_stop_value (g : JsError + list Track) (st : State) :
  isListening st = true ->
  toggleVoiceInput g st = (inr tt, stopped st, teardown st).
Proof.
  intro H. unfold toggleVoiceInput, bind. cbn [get]. rewrite H.
  rewrite stopListening_value. now rewrite app_nil_l.
Qed.

Lemma onended_value (s : Source) (st : State) :
  onended s st =
  (inr tt,
   (if Nat.eqb (List.length (set_delete s (sourcesRef st))) 0
    then with_liveStatus LISTENING (with_sourcesRef (set_delete s (sourcesRef st)) st)
    else with_sourcesRef (set_delete s (sourcesRef st)) st),
   []).
Proof.
  destruct st as [l ls er ic oc c srcs str ses fr].
  unfold onended, bind. cbn -[set_delete].
  destruct (List.length (set_delete s srcs) =? 0); reflexivity.
Qed.

Lemma set_add_fresh (x : Source) (l : list Source) :
  Forall (fun s => s < x) l -> set_add x l = l ++ [x].
Proof.
  intro H. unfold set_add.
  replace (existsb (Nat.eqb x) l) with false; [reflexivity|].
  symmetry. apply not_true_is_false. intro E.
  apply existsb_exists in E. destruct E as [y [Hy E]].
  apply Nat.eqb_eq in E. subst y.
  rewrite Forall_forall in H. specialize (H x Hy). lia.
Qed.

Lemma distinct_handles_stopped (st : State) : distinct_handles (stopped st).
Proof. split; constructor. Qed.

Lemma distinct_handles_same (st st' : State) :
  sourcesRef st' = sourcesRef st -> fresh st <= fresh st' ->
  distinct_handles st -> distinct_handles st'.
Proof.
  intros Hs Hf [N F]. unfold distinct_handles. rewrite Hs. split; [exact N|].
  eapply Forall_impl; [|exact F]. cbn beta. intros. lia.
Qed.

Lemma distinct_handles_step (e : Event) (st : State) :
  distinct_handles st -> distinct_handles (step st e).
Proof.
  intros [N F]. unfold step. destruct e as [g | now m | s | | ]; cbn [handler].
  - destruct (isListening st) eqn:L.
    + rewrite (toggle_stop_value g st L). apply distinct_handles_stopped.
    + destruct g as [e|tracks].
      * rewrite (failed_start_value st e L).
        apply (distinct_handles_same st); [reflexivity | cbn; lia | now split].
      * rewrite (toggle_start_value tracks st L).
        apply (distinct_handles_same st); [reflexivity | cbn; lia | now split].
  - assert (A : distinct_handles
                  (if has_modelTurn m then with_liveStatus SPEAKING st
                   else if has_turnComplete m then with_liveStatus LISTENING st
                   else st)).
    { apply (distinct_handles_same st); [| | now split];
        destruct (has_modelTurn m), (has_turnComplete m); reflexivity. }
    set (st1 := if has_modelTurn m then _ else _) in *.
    onmessage_cases now m st; fold st1; cbn [state_after fst snd].
    + exact A.
    + apply (distinct_handles_same st1); [reflexivity | cbn; lia | exact A].
    + destruct (has_interrupted m); cbn [state_after fst snd].
      * split; constructor.
      * destruct A as [N1 F1]. split; cbn [sourcesRef fresh].
        -- rewrite (set_add_fresh _ _ F1). apply NoDup_app; repeat split.
           ++ exact N1.
           ++ repeat constructor. intros [].
           ++ intros x Hx [<-|[]]. rewrite Forall_forall in F1.
              specialize (F1 _ Hx). lia.
        -- rewrite (set_add_fresh _ _ F1). apply Forall_app. split.
           ++ eapply Forall_impl; [|exact F1]. cbn beta. intros. lia.
           ++ repeat constructor.
    + destruct (has_interrupted m); cbn [state_after fst snd].
      * split; constructor.
      * exact A.
  - rewrite onended_value. cbn [state_after fst snd].
    assert (D : distinct_handles (with_sourcesRef (set_delete s (sourcesRef st)) st)).
    { split; cbn [sourcesRef fresh with_sourcesRef]; unfold set_delete.
      - now apply NoDup_filter.
      - apply Forall_forall. intros x Hx. apply filter_In in Hx.
        rewrite Forall_forall in F. now apply F. }
    destruct (_ =? 0); [|exact D].
    apply (distinct_handles_same (with_sourcesRef (set_delete s (sourcesRef st)) st));
      [reflexivity | cbn; lia | exact D].
  - unfold onerror. rewrite stopListening_value. apply distinct_handles_stopped.
  - apply (distinct_handles_same st); [reflexivity | cbn; lia | now split].
Qed.

Lemma distinct_handles_run (es : list Event) (st : State) :
  distinct_handles st -> distinct_handles (run es st).
Proof.
  revert st. induction es as [|e es IH]; intros st H; [exact H|].
  cbn [run fold_left]. apply IH, distinct_handles_step, H.
Qed.

(** X8.  After any sequence of events on a fresh page, the active set holds
    no handle twice and only handles the platform has handed out.  Hence a
    chunk that decodes, in a message without the [interrupted] flag, always
    adds exactly one entry to the active set, the new source, at its end. *)
Theorem active_set_tracks_each_source_once (es : list Event) :
  NoDup (sourcesRef (run es initial))
  /\ Forall (fun s => s < fresh (run es initial)) (sourcesRef (run es initial))
  /\ forall now m buffer,
       chunk_of m = Some buffer -> has_interrupted m = false ->
       sourcesRef (step (run es initial) (Message now m))
       = sourcesRef (run es initial) ++ [fresh (run es initial)].
Proof.
  assert (H : distinct_handles (run es initial)).
  { apply distinct_handles_run. split; constructor. }
  destruct H as [N F]. split; [exact N|]. split; [exact F|].
  intros now m buffer C I. unfold step. cbn [handler].
  rewrite (onmessage_schedules now m _ buffer C I).
  cbn [state_after fst snd sourcesRef]. now apply set_add_fresh.
Qed.

Lemma active_set_tracks_each_source_once_witness :
  sourcesRef (step (run [Toggle (inr [7]); Message 0 (audio_message silence)] initial)
                   (Message 0 (audio_message silence)))
  = sourcesRef (run [Toggle (inr [7]); Message 0 (audio_message silence)] initial)
    ++ [fresh (run [Toggle (inr [7]); Message 0 (audio_message silence)] initial)].
Proof.
  destruct (active_set_tracks_each_source_once
              [Toggle (inr [7]); Message 0 (audio_message silence)]) as [_ [_ H]].
  apply (H 0%Q (audio_message silence)
           {| frames := 1; sampleRate := 24000; channels := [[Num (0 # 32768)]] |});
    reflexivity.
Defined.

(** *** The status *)

Lemma step_status (e : Event) (st : State) :
  liveStatus (step st e) = liveStatus st
  \/ liveStatus (step st e) = IDLE
  \/ liveStatus (step st e) = LISTENING
  \/ liveStatus (step st e) = SPEAKING.
Proof.
  unfold step. destruct e as [g | now m | s | | ]; cbn [handler].
  - destruct (isListening st) eqn:L.
    + rewrite (toggle_stop_value g st L). now right; left.
    + destruct g as [e|tracks].
      * rewrite (failed_start_value st e L). now right; left.
      * rewrite (toggle_start_value tracks st L). now right; right; left.
  - onmessage_cases now m st;
      repeat match goal with
             | |- context [if ?b then _ else _] => destruct b
             end;
      cbn; tauto.
  - rewrite onended_value. cbn [state_after fst snd].
    destruct (_ =? 0); cbn; tauto.
  - unfold onerror. rewrite stopListening_value. now right; left.
  - cbn. tauto.
Qed.

(** X9.  No handler ever sets the status to THINKING: a session that is
    not in that state never comes to it, whatever events follow. *)
Theorem status_never_thinking (es : list Event) (st : State) :
  liveStatus st <> THINKING -> liveStatus (run es st) <> THINKING.
Proof.
  revert st. induction es as [|e es IH]; intros st H; [exact H|].
  cbn [run fold_left]. apply IH.
  destruct (step_status e st) as [E|[E|[E|E]]]; rewrite E;
    [exact H | discriminate | discriminate | discriminate].
Qed.

Lemma status_never_thinking_witness :
  liveStatus (run [Toggle (inr [7]); Message 0 (audio_message silence);
                   Message 0 turn_complete_message; Ended 3; Closed] initial)
  <> THINKING.
Proof.
  apply (status_never_thinking _ initial). discriminate.
Defined.

(** *** A start and the stop after it *)

(** X10.  A start on an idle session succeeds when the microphone is
    granted, and stops or closes nothing; the stop that follows releases
    exactly what the start acquired, in the order of teardown: the captured
    tracks, the two new audio contexts, the sources still in the active
    set, and the new session. *)
Theorem stop_releases_what_start_acquired (tracks : list Track)
    (g : JsError + list Track) (st : State) :
  isListening st = false ->
  outcome_of (toggleVoiceInput (inr tracks) st) = inr tt
  /\ effects_of (toggleVoiceInput (inr tracks) st) = []
  /\ isListening (state_after (toggleVoiceInput (inr tracks) st)) = true
  /\ liveStatus (state_after (toggleVoiceInput (inr tracks) st)) = LISTENING
  /\ effects_of (toggleVoiceInput g (state_after (toggleVoiceInput (inr tracks) st))) =
     map TrackStop tracks
     ++ [ContextClose (fresh st); ContextClose (S (fresh st))]
     ++ map SourceStop (sourcesRef st)
     ++ [SessionClose (S (S (fresh st)))]
  /\ isListening
       (state_after (toggleVoiceInput g (state_after (toggleVoiceInput (inr tracks) st))))
     = false
  /\ liveStatus
       (state_after (toggleVoiceInput g (state_after (toggleVoiceInput (inr tracks) st))))
     = IDLE.
Proof.
  intro H. rewrite (toggle_start_value tracks st H).
  cbn [outcome_of effects_of state_after fst snd isListening liveStatus].
  repeat (split; [reflexivity|]).
  rewrite toggle_stop_value by reflexivity.
  cbn [effects_of state_after fst snd]. unfold teardown, stopped.
  cbn [streamRef inputAudioContextRef outputAudioContextRef sourcesRef sessionRef
       option_list List.concat map app isListening liveStatus].
  rewrite app_nil_r. repeat split.
Qed.

Lemma stop_releases_what_start_acquired_witness :
  outcome_of (toggleVoiceInput (inr [7]) initial) = inr tt
  /\ effects_of (toggleVoiceInput (inr [7]) initial) = []
  /\ isListening (state_after (toggleVoiceInput (inr [7]) initial)) = true
  /\ liveStatus (state_after (toggleVoiceInput (inr [7]) initial)) = LISTENING
  /\ effects_of (toggleVoiceInput (inl NotFoundError)
                   (state_after (toggleVoiceInput (inr [7]) initial))) =
     map TrackStop [7]
     ++ [ContextClose (fresh initial); ContextClose (S (fresh initial))]
     ++ map SourceStop (sourcesRef initial)
     ++ [SessionClose (S (S (fresh initial)))]
  /\ isListening
       (state_after (toggleVoiceInput (inl NotFoundError)
                       (state_after (toggleVoiceInput (inr [7]) initial))))
     = false
  /\ liveStatus
       (state_after (toggleVoiceInput (inl NotFoundError)
                       (state_after (toggleVoiceInput (inr [7]) initial))))
     = IDLE.
Proof.
  apply (stop_releases_what_start_acquired [7] (inl NotFoundError) initial).
  reflexivity.
Defined.

End LiveFacts.

(** ** The decision history *)

Module HistoryFacts.

Import History.
Local Open Scope list_scope.
Local Open Scope nat_scope.

Lemma firstn_cons_firstn (A : Type) (n : nat) (x : A) (l : list A) :
  firstn (S n) (x :: firstn (S n) l) = firstn (S n) (x :: l).
Proof.
  rewrite !firstn_cons. f_equal.
  rewrite firstn_firstn. f_equal. lia.
Qed.

Lemma save_all_history (ds : list Decision) (d : Decision) (st : Store) :
  history (saveToHistory d (save_all ds st)) =
  firstn 50 (d :: rev ds ++ history st).
Proof.
  revert d. induction ds as [|d' ds IH] using rev_ind; intro d.
  - reflexivity.
  - unfold save_all in *. rewrite fold_left_app. cbn [fold_left].
    unfold saveToHistory at 1. cbn [history]. unfold slice0.
    rewrite IH, rev_app_distr. cbn [rev app].
    apply firstn_cons_firstn.
Qed.

(** C10.  However many decisions were saved before, [saveToHistory] leaves
    in the state and in [localStorage] the same list: the new decision
    first, then the earlier ones from the newest to the oldest, then what
    the history held at the start, cut after 50 entries. *)
Theorem history_newest_first_at_most_50 (ds : list Decision) (d : Decision)
    (st : Store) :
  let st' := saveToHistory d (save_all ds st) in
  persisted st' = Some (firstn 50 (d :: rev ds ++ history st))
  /\ history st' = firstn 50 (d :: rev ds ++ history st)
  /\ hd_error (history st') = Some d
  /\ List.length (history st') <= 50.
Proof.
  cbv zeta.
  pose proof (save_all_history ds d st) as H.
  split; [|split; [|split]].
  - unfold saveToHistory in *. cbn [persisted history] in *. now f_equal.
  - exact H.
  - rewrite H. reflexivity.
  - rewrite H. apply firstn_le_length.
Qed.

(** *** Outcomes *)

Lemma with_outcome_twice (o o' : option Outcome) (d : Decision) :
  with_outcome o (with_outcome o' d) = with_outcome o d.
Proof. reflexivity. Qed.

(** X11.  [updateOutcome] changes nothing but outcomes: the decisions keep
    their number, their order and every other field.  Afterwards every
    decision with the given id has the given outcome; when no decision has
    that id the history is unchanged; and doing it twice is doing it once. *)
Theorem updateOutcome_only_sets_outcomes (id' : string) (o : option Outcome)
    (st : Store) :
  map (with_outcome None) (history (updateOutcome id' o st))
    = map (with_outcome None) (history st)
  /\ Forall (fun d => id d = id' -> outcome d = o) (history (updateOutcome id' o st))
  /\ (Forall (fun d => id d <> id') (history st) ->
      history (updateOutcome id' o st) = history st)
  /\ updateOutcome id' o (updateOutcome id' o st) = updateOutcome id' o st.
Proof.
  unfold updateOutcome. cbn [history]. split; [|split; [|split]].
  - rewrite map_map. apply map_ext. intro d.
    destruct (String.eqb (id d) id'); reflexivity.
  - apply Forall_map, Forall_forall. intros d _.
    destruct (String.eqb_spec (id d) id') as [E|N]; cbn; intro H; [reflexivity|].
    contradiction.
  - intro H. rewrite <- (map_id (history st)) at 2.
    apply map_ext_in. intros d Hd. rewrite Forall_forall in H.
    destruct (String.eqb_spec (id d) id') as [E|N]; [|reflexivity].
    now destruct (H d Hd).
  - f_equal.
    + rewrite map_map. apply map_ext. intro d.
      destruct (String.eqb (id d) id') eqn:E; cbn [id with_outcome]; rewrite E;
        reflexivity.
    + f_equal. rewrite map_map. apply map_ext. intro d.
      destruct (String.eqb (id d) id') eqn:E; cbn [id with_outcome]; rewrite E;
        reflexivity.
Qed.

Lemma updateOutcome_only_sets_outcomes_witness :
  let d := {| id := "a"; dilemma := "Tea or coffee?"; pros := []; cons := [];
              mode := Quick; recommendation := Some "Tea"%string;
              explanation := None; confidence := None;
              outcome := Some Pending; createdAt := 0 |} in
  history (updateOutcome "b" (Some Followed)
             {| history := [d]; persisted := Some [d] |}) = [d].
Proof.
  cbv zeta.
  destruct (updateOutcome_only_sets_outcomes "b" (Some Followed)
              {| history :=
                   [{| id := "a"; dilemma := "Tea or coffee?"; pros := []; cons := [];
                       mode := Quick; recommendation := Some "Tea"%string;
                       explanation := None; confidence := None;
                       outcome := Some Pending; createdAt := 0 |}];
                 persisted :=
                   Some [{| id := "a"; dilemma := "Tea or coffee?"; pros := [];
                            cons := []; mode := Quick;
                            recommendation := Some "Tea"%string;
                            explanation := None; confidence := None;
                            outcome := Some Pending; createdAt := 0 |}] |})
    as [_ [_ [H _]]].
  apply H. repeat constructor. discriminate.
Defined.

(** *** The history and its copy in [localStorage] *)

Lemma act_mirror (st : Store) (a : Action) :
  (persisted st = Some (history st) \/ persisted st = None /\ history st = []) ->
  persisted (act st a) = Some (history (act st a))
  \/ persisted (act st a) = None /\ history (act st a) = [].
Proof.
  intro H. destruct a as [d | i o | ]; cbn [act].
  - left. reflexivity.
  - left. reflexivity.
  - unfold load_history. cbn [persisted].
    destruct (persisted st) as [saved|]; cbn [persisted history]; auto.
Qed.

Lemma act_bound (st : Store) (a : Action) :
  List.length (history st) <= 50 ->
  (persisted st = Some (history st) \/ persisted st = None /\ history st = []) ->
  List.length (history (act st a)) <= 50.
Proof.
  intros B H. destruct a as [d | i o | ]; cbn [act].
  - unfold saveToHistory, slice0. cbn [history]. apply firstn_le_length.
  - unfold updateOutcome. cbn [history]. now rewrite length_map.
  - unfold load_history. cbn [persisted].
    destruct H as [E|[E _]]; rewrite E; cbn [history]; [exact B | cbn; lia].
Qed.

(** X12.  The history shown and its copy in [localStorage] never part.
    Starting from a page that has loaded at most 50 stored decisions (or
    none), after any sequence of decisions, outcome changes and reloads the
    stored list is the list shown, it has at most 50 entries, and a reload
    shows it again unchanged. *)
Theorem history_mirrors_storage (saved : option (list Decision))
    (actions : list Action) :
  (forall l, saved = Some l -> List.length l <= 50) ->
  let st := fold_left act actions
              (load_history {| history := []; persisted := saved |}) in
  (persisted st = Some (history st) \/ persisted st = None /\ history st = [])
  /\ List.length (history st) <= 50
  /\ history (act st Reload) = history st.
Proof.
  intro Hs. cbv zeta.
  set (st0 := load_history _).
  assert (I0 : (persisted st0 = Some (history st0)
                \/ persisted st0 = None /\ history st0 = [])
               /\ List.length (history st0) <= 50).
  { subst st0. unfold load_history. cbn [persisted].
    destruct saved as [l|]; cbn [persisted history].
    - split; [now left | now apply Hs].
    - split; [now right | cbn; lia]. }
  clearbody st0. revert st0 I0.
  induction actions as [|a actions IH]; intros st0 [M B]; cbn [fold_left].
  - split; [exact M|]. split; [exact B|].
    cbn [act]. unfold load_history. cbn [persisted].
    destruct M as [E|[E N]]; rewrite E; cbn [history]; congruence.
  - apply IH. split; [now apply act_mirror | now apply act_bound].
Qed.

(** One decision was stored by an earlier visit; a new one is saved, marked
    as followed, and the page is reloaded. *)
Lemma history_mirrors_storage_witness :
  let d := {| id := "a"; dilemma := "Tea or coffee?"; pros := []; cons := [];
                 mode := Quick; recommendation := Some "Tea"%string;
                 explanation := None; confidence := None;
                 outcome := Some Pending; createdAt := 2 |} in
  let d0 := {| id := "b"; dilemma := "Walk or ride?"; pros := []; cons := [];
                 mode := Quick; recommendation := Some "Walk"%string;
                 explanation := None; confidence := None;
                 outcome := Some Ignored; createdAt := 1 |} in
  let st := fold_left act [Save d; SetOutcome "a" (Some Followed); Reload]
              (load_history {| history := []; persisted := Some [d0] |}) in
  history st = [with_outcome (Some Followed) d; d0]
  /\ ((persisted st = Some (history st) \/ persisted st = None /\ history st = [])
      /\ List.length (history st) <= 50
      /\ history (act st Reload) = history st).
Proof.
  cbv zeta. split; [reflexivity|].
  apply (history_mirrors_storage
           (Some [{| id := "b"; dilemma := "Walk or ride?"; pros := []; cons := [];
                 mode := Quick; recommendation := Some "Walk"%string;
                 explanation := None; confidence := None;
                 outcome := Some Ignored; createdAt := 1 |}])
           [Save {| id := "a"; dilemma := "Tea or coffee?"; pros := []; cons := [];
                 mode := Quick; recommendation := Some "Tea"%string;
                 explanation := None; confidence := None;
                 outcome := Some Pending; createdAt := 2 |};
            SetOutcome "a" (Some Followed); Reload]).
  intros l E. injection E as <-. cbn. lia.
Defined.

End HistoryFacts.

(** ** Text *)

Module TextFacts.

Import Text.
Local Open Scope list_scope.
Local Open Scope nat_scope.






Lemma append_assoc (a b c : string) : ((a ++ b) ++ c = a ++ (b ++ c))%string.
Proof. induction a as [|x a IH]; cbn; [reflexivity | now f_equal]. Qed.


End TextFacts.

(** ** Focus mode *)

Module FocusFacts.

Import Text Focus.
Local Open Scope list_scope.
Local Open Scope nat_scope.

(** Everything of a task but its suggestion: what the schedule leaves. *)
Lemma with_completed_twice (t : Task) :
  with_completed (negb (completed (with_completed (negb (completed t)) t)))
                 (with_completed (negb (completed t)) t) = t.
Proof. destruct t. cbn. now rewrite negb_involutive. Qed.

(** X13.  [toggleTask] flips the completion of the tasks with the given id
    and of no other, and changes no other field; toggling twice gives the
    task list back, and the list is stored each time. *)
Theorem toggleTask_twice (id' : string) (st : State) :
  tasks (toggleTask id' (toggleTask id' st)) = tasks st
  /\ stored (toggleTask id' (toggleTask id' st)) = Some (tasks st)
  /\ map (with_completed false) (tasks (toggleTask id' st))
     = map (with_completed false) (tasks st)
  /\ Forall2 (fun t t' =>
                completed t' = if String.eqb (id t) id'
                               then negb (completed t) else completed t)
             (tasks st) (tasks (toggleTask id' st)).
Proof.
  assert (E : map (fun t => if String.eqb (id t) id'
                            then with_completed (negb (completed t)) t else t)
                (map (fun t => if String.eqb (id t) id'
                               then with_completed (negb (completed t)) t else t)
                     (tasks st)) = tasks st).
  { rewrite map_map. rewrite <- (map_id (tasks st)) at 2.
    apply map_ext. intro t.
    destruct (String.eqb (id t) id') eqn:I; cbn [id with_completed]; rewrite I;
      [apply with_completed_twice | reflexivity]. }
  unfold toggleTask. cbn [tasks stored setTasks].
  split; [exact E|]. split; [now rewrite E|]. split.
  - rewrite map_map. apply map_ext. intro t.
    destruct (String.eqb (id t) id'); reflexivity.
  - clear E. induction (tasks st) as [|t ts IH]; cbn [map]; [constructor|].
    constructor; [|exact IH].
    destruct (String.eqb (id t) id'); reflexivity.
Qed.

(** *** The schedule *)

Lemma find_absent (A : Type) (f : A -> bool) (l : list A) :
  Forall (fun x => f x = false) l -> find f l = None.
Proof.
  induction 1 as [|x l Hx _ IH]; [reflexivity|].
  cbn [find]. now rewrite Hx.
Qed.

Lemma find_none_iff_absent (A : Type) (f : A -> bool) (l : list A) (x : A) :
  In x l -> find f l = None -> f x <> true.
Proof.
  intros Hin F E. pose proof (List.find_none f l F x Hin). congruence.
Qed.

Lemma find_unique (l : list Suggestion) (s : Suggestion) (key : string) :
  NoDup (map taskId l) -> In s l -> taskId s = key ->
  find (fun x => String.eqb (taskId x) key) l = Some s.
Proof.
  induction l as [|x l IH]; intros N Hin Hk; [destruct Hin|].
  cbn [find]. cbn [map] in N. inversion N as [|? ? Hx N']; subst.
  destruct Hin as [->|Hin].
  - now rewrite String.eqb_refl.
  - destruct (String.eqb_spec (taskId x) (taskId s)) as [E|_].
    + exfalso. apply Hx. rewrite E. now apply in_map.
    + now apply IH.
Qed.

(** X14.  [handleGenerateSchedule] does nothing when no task is open.
    Otherwise it ends with [isScheduling] false.  When the service fails it
    reports "Failed to generate schedule." and leaves the tasks and their
    stored copy alone.  When the service answers, the summary is shown and
    every task keeps its place and all its fields but the suggestion: a
    task no suggestion names is unchanged, and with suggestions for distinct
    ids a task gets the order and the reasoning of the suggestion that
    names it. *)
Theorem handleGenerateSchedule_merges (reply : JsError + ScheduleResult) (st : State) :
  (Forall (fun t => completed t = true) (tasks st) ->
   handleGenerateSchedule reply st = st)
  /\ (Exists (fun t => completed t = false) (tasks st) ->
      isScheduling (handleGenerateSchedule reply st) = false
      /\ match reply with
         | inl _ =>
             tasks (handleGenerateSchedule reply st) = tasks st
             /\ stored (handleGenerateSchedule reply st) = stored st
             /\ error (handleGenerateSchedule reply st)
                = Some "Failed to generate schedule."%string
         | inr schedule =>
             scheduleSummary (handleGenerateSchedule reply st) = summary schedule
             /\ error (handleGenerateSchedule reply st) = error st
             /\ stored (handleGenerateSchedule reply st)
                = Some (tasks (handleGenerateSchedule reply st))
             /\ Forall2
                  (fun t t' =>
                     id t' = id t /\ title t' = title t
                     /\ deadline t' = deadline t /\ priority t' = priority t
                     /\ completed t' = completed t /\ subTasks t' = subTasks t
                     /\ (Forall (fun s => taskId s <> id t) (schedule_tasks schedule) ->
                         t' = t)
                     /\ (NoDup (map taskId (schedule_tasks schedule)) ->
                         forall s, In s (schedule_tasks schedule) -> taskId s = id t ->
                           suggestedOrder t' = Some (order s)
                           /\ reasoning t' = Some (suggestion_reasoning s)))
                  (tasks st) (tasks (handleGenerateSchedule reply st))
         end).
Proof.
  unfold handleGenerateSchedule. cbv zeta. split.
  - intro H.
    replace (filter (fun t => negb (completed t)) (tasks st)) with (@nil Task);
      [reflexivity|].
    symmetry. induction H as [|t ts Ht _ IH]; [reflexivity|].
    cbn [filter]. now rewrite Ht.
  - intro H.
    destruct (List.length (filter (fun t => negb (completed t)) (tasks st)) =? 0) eqn:L.
    { exfalso. apply Nat.eqb_eq, length_zero_iff_nil in L.
      apply Exists_exists in H. destruct H as [t [Hin Ht]].
      assert (In t (filter (fun t => negb (completed t)) (tasks st)))
        by (apply filter_In; split; [exact Hin | now rewrite Ht]).
      rewrite L in H. destruct H. }
    destruct reply as [e|schedule]; cbn; repeat (split; [reflexivity|]).
    + reflexivity.
    + clear H L. induction (tasks st) as [|t ts IH]; cbn [map]; [constructor|].
      constructor; [|exact IH].
      destruct (find (fun s => String.eqb (taskId s) (id t)) (schedule_tasks schedule))
        as [s0|] eqn:F.
      * cbn [id title deadline priority completed subTasks suggestedOrder
             reasoning with_suggestion].
        do 6 (split; [reflexivity|]). split.
        -- intro N. rewrite find_absent in F; [discriminate|].
           eapply Forall_impl; [|exact N]. cbn beta. intros s Hs.
           now apply String.eqb_neq.
        -- intros N s Hin Hk. rewrite (find_unique _ s (id t) N Hin Hk) in F.
           injection F as <-. split; reflexivity.
      * do 6 (split; [reflexivity|]). split; [reflexivity|].
        intros N s Hin Hk. rewrite (find_unique _ s (id t) N Hin Hk) in F.
        discriminate.
Qed.

Lemma handleGenerateSchedule_merges_witness :
  isScheduling
    (handleGenerateSchedule (inl TypeError)
       (act initial (Add "Write" "" Medium "t1"))) = false
  /\ tasks (handleGenerateSchedule (inl TypeError)
              (act initial (Add "Write" "" Medium "t1")))
     = tasks (act initial (Add "Write" "" Medium "t1"))
  /\ stored (handleGenerateSchedule (inl TypeError)
               (act initial (Add "Write" "" Medium "t1")))
     = stored (act initial (Add "Write" "" Medium "t1"))
  /\ error (handleGenerateSchedule (inl TypeError)
              (act initial (Add "Write" "" Medium "t1")))
     = Some "Failed to generate schedule."%string.
Proof.
  destruct (handleGenerateSchedule_merges (inl TypeError)
              (act initial (Add "Write" "" Medium "t1"))) as [_ H].
  apply H. apply Exists_cons_hd. reflexivity.
Defined.

(** *** Breaking a task down *)

Lemma new_subTasks_texts (uuidv4 : nat -> string) (steps : list string) :
  map sub_text (new_subTasks uuidv4 steps) = steps
  /\ map sub_id (new_subTasks uuidv4 steps) = map uuidv4 (seq 0 (List.length steps))
  /\ Forall (fun sub => sub_completed sub = false) (new_subTasks uuidv4 steps).
Proof.
  unfold new_subTasks.
  assert (L : List.length (seq 0 (List.length steps)) = List.length steps)
    by apply length_seq.
  revert L. generalize (seq 0 (List.length steps)) as ns.
  induction steps as [|x steps IH]; intros [|n ns] L; try discriminate L.
  - repeat split. constructor.
  - cbn [combine map fst snd sub_text sub_id]. injection L as L.
    destruct (IH ns L) as [A [B C]]. rewrite A, B.
    repeat split. constructor; [reflexivity | exact C].
Qed.

(** X15.  [handleBreakDown] does nothing for an id no task has.  Otherwise
    it ends with [loading] false.  When the service fails it reports
    "Failed to break down task." and leaves the tasks and their stored copy
    alone.  When the service answers, the tasks with the id get one open
    subtask per step, with the texts of the steps in order, and nothing else
    changes in any task. *)
Theorem handleBreakDown_sets_subtasks (taskId' : string) (uuidv4 : nat -> string)
    (reply : JsError + list string) (st : State) :
  (Forall (fun t => id t <> taskId') (tasks st) ->
   handleBreakDown taskId' uuidv4 reply st = st)
  /\ (Exists (fun t => id t = taskId') (tasks st) ->
      loading (handleBreakDown taskId' uuidv4 reply st) = false
      /\ match reply with
         | inl _ =>
             tasks (handleBreakDown taskId' uuidv4 reply st) = tasks st
             /\ stored (handleBreakDown taskId' uuidv4 reply st) = stored st
             /\ error (handleBreakDown taskId' uuidv4 reply st)
                = Some "Failed to break down task."%string
         | inr steps =>
             error (handleBreakDown taskId' uuidv4 reply st) = error st
             /\ stored (handleBreakDown taskId' uuidv4 reply st)
                = Some (tasks (handleBreakDown taskId' uuidv4 reply st))
             /\ Forall2
                  (fun t t' =>
                     with_subTasks [] t' = with_subTasks [] t
                     /\ (id t <> taskId' -> t' = t)
                     /\ (id t = taskId' ->
                         map sub_text (subTasks t') = steps
                         /\ Forall (fun sub => sub_completed sub = false)
                                   (subTasks t')))
                  (tasks st) (tasks (handleBreakDown taskId' uuidv4 reply st))
         end).
Proof.
  unfold handleBreakDown. cbv zeta. split.
  - intro H. rewrite find_absent; [reflexivity|].
    eapply Forall_impl; [|exact H]. cbn beta. intros t Ht.
    now apply String.eqb_neq.
  - intro H.
    destruct (find (fun t => String.eqb (id t) taskId') (tasks st)) as [task|] eqn:F.
    2:{ exfalso. apply Exists_exists in H. destruct H as [t [Hin Ht]].
        apply (find_none_iff_absent _ _ _ t Hin F). now apply String.eqb_eq. }
    destruct reply as [e|steps]; cbn; repeat (split; [reflexivity|]).
    + reflexivity.
    + destruct (new_subTasks_texts uuidv4 steps) as [A [_ C]].
      clear H F. induction (tasks st) as [|t ts IH]; cbn [map]; [constructor|].
      constructor; [|exact IH].
      destruct (String.eqb_spec (id t) taskId') as [E|N].
      * split; [reflexivity|]. split; [intro; contradiction|].
        intros _. cbn [subTasks with_subTasks]. now split.
      * split; [reflexivity|]. split; [reflexivity|]. intro; contradiction.
Qed.

Lemma handleBreakDown_sets_subtasks_witness :
  loading
    (handleBreakDown "t1" (fun _ => "s"%string) (inl TypeError)
       (act initial (Add "Write" "" Medium "t1"))) = false
  /\ tasks (handleBreakDown "t1" (fun _ => "s"%string) (inl TypeError)
              (act initial (Add "Write" "" Medium "t1")))
     = tasks (act initial (Add "Write" "" Medium "t1"))
  /\ stored (handleBreakDown "t1" (fun _ => "s"%string) (inl TypeError)
               (act initial (Add "Write" "" Medium "t1")))
     = stored (act initial (Add "Write" "" Medium "t1"))
  /\ error (handleBreakDown "t1" (fun _ => "s"%string) (inl TypeError)
              (act initial (Add "Write" "" Medium "t1")))
     = Some "Failed to break down task."%string.
Proof.
  destruct (handleBreakDown_sets_subtasks "t1" (fun _ => "s"%string) (inl TypeError)
              (act initial (Add "Write" "" Medium "t1"))) as [_ H].
  apply H. apply Exists_cons_hd. reflexivity.
Defined.

(** *** What every task list satisfies *)

Lemma act_keeps (st : State) (a : Action) :
  Forall (fun t => blank (title t) = false) (tasks st) ->
  stored st = Some (tasks st) ->
  Forall (fun t => blank (title t) = false) (tasks (act st a))
  /\ stored (act st a) = Some (tasks (act st a)).
Proof.
  intros T S. destruct a as [ti de pr newId | i | i | i u reply | reply]; cbn [act].
  - unfold addTask. cbn [newTaskTitle type_inputs].
    destruct (blank ti) eqn:B; cbn [tasks stored type_inputs]; [now split|].
    split; [|reflexivity].
    apply Forall_app. split; [exact T|]. repeat constructor. exact B.
  - unfold deleteTask. cbn [tasks stored setTasks]. split; [|reflexivity].
    apply Forall_forall. intros t Ht. apply filter_In in Ht.
    rewrite Forall_forall in T. now apply T.
  - unfold toggleTask. cbn [tasks stored setTasks]. split; [|reflexivity].
    apply Forall_map. eapply Forall_impl; [|exact T]. cbn beta. intros t Ht.
    now destruct (String.eqb (id t) i).
  - unfold handleBreakDown.
    destruct (find _ _) as [task|]; [|now split].
    destruct reply as [e|steps]; cbn; [now split|].
    split; [|reflexivity].
    apply Forall_map. eapply Forall_impl; [|exact T]. cbn beta. intros t Ht.
    now destruct (String.eqb (id t) i).
  - unfold handleGenerateSchedule. cbv zeta.
    destruct (_ =? 0); [now split|].
    destruct reply as [e|schedule]; cbn; [now split|].
    split; [|reflexivity].
    apply Forall_map. eapply Forall_impl; [|exact T]. cbn beta. intros t Ht.
    now destruct (find _ _) as [suggestion|].
Qed.

(** X16.  On the Focus tab, whatever the user does and whatever the service
    answers, no task ever has a blank title, and the stored copy of the
    task list is always the list shown. *)
Theorem tasks_have_titles_and_are_stored (actions : list Action) :
  Forall (fun t => blank (title t) = false) (tasks (fold_left act actions initial))
  /\ stored (fold_left act actions initial)
     = Some (tasks (fold_left act actions initial)).
Proof.
  assert (G : forall st,
             Forall (fun t => blank (title t) = false) (tasks st) ->
             stored st = Some (tasks st) ->
             Forall (fun t => blank (title t) = false) (tasks (fold_left act actions st))
             /\ stored (fold_left act actions st)
                = Some (tasks (fold_left act actions st))).
  { induction actions as [|a actions IH]; intros st T S; [now split|].
    cbn [fold_left]. destruct (act_keeps st a T S) as [T' S']. now apply IH. }
  apply G; [constructor | reflexivity].
Qed.

End FocusFacts.

(** ** Asking for a decision *)

Module DecideFacts.

Import Text Decide.
Local Open Scope list_scope.
Local Open Scope nat_scope.


Lemma weighted_items_length (uuidv4 : nat -> string) (first : nat) (text : string) :
  List.length (weighted_items uuidv4 first text)
  = List.length (filter (fun l => negb (blank l)) (split_lines text)).
Proof.
  unfold weighted_items. cbv zeta.
  rewrite length_map, length_combine, length_seq. apply Nat.min_id.
Qed.

(** X17.  [handleDecide] saves nothing unless the service answers.  With a
    dilemma that is blank once trimmed it only shows "Tell me a bit about
    what's on your mind." and touches nothing else.  When the service
    fails, the history and its stored copy are as before, no result is
    shown, [loading] is false again and the message shown is the one of the
    service, never the fallback of [handleDecide]. *)
Theorem handleDecide_saves_nothing_unless_answered (uuidv4 : nat -> string)
    (now : Z) (st : State) :
  (blank (dilemma st) = true ->
   forall reply,
     handleDecide uuidv4 now reply st
     = setError (Some "Tell me a bit about what's on your mind."%string) st)
  /\ (blank (dilemma st) = false ->
      forall e,
        store (handleDecide uuidv4 now (inl e) st) = store st
        /\ result (handleDecide uuidv4 now (inl e) st) = None
        /\ loading (handleDecide uuidv4 now (inl e) st) = false
        /\ error (handleDecide uuidv4 now (inl e) st)
           = Some "My thought process was interrupted. Could you try asking again?"%string).
Proof.
  split.
  - intros B reply. unfold handleDecide. now rewrite B.
  - intros B e. unfold handleDecide. rewrite B. cbn. repeat split.
Qed.

Lemma handleDecide_saves_nothing_unless_answered_witness :
  handleDecide (fun _ => "id"%string) 0
    (inl TypeError)
    {| dilemma := "  "; prosText := ""; consText := "";
       standardSubMode := QuickMode; loading := false; result := None;
       error := None;
       store := {| History.history := []; History.persisted := None |} |}
  = setError (Some "Tell me a bit about what's on your mind."%string)
      {| dilemma := "  "; prosText := ""; consText := "";
         standardSubMode := QuickMode; loading := false; result := None;
         error := None;
         store := {| History.history := []; History.persisted := None |} |}.
Proof.
  destruct (handleDecide_saves_nothing_unless_answered (fun _ => "id"%string) 0
              {| dilemma := "  "; prosText := ""; consText := "";
                 standardSubMode := QuickMode; loading := false; result := None;
                 error := None;
                 store := {| History.history := []; History.persisted := None |} |})
    as [H _].
  apply H. reflexivity.
Defined.



(** *** The request *)

Lemma isLongInput_value (uuidv4 : nat -> string) (now : Z) (st : State) :
  isLongInput (decisionData uuidv4 now st) =
  (200 <? String.length (dilemma st))
  || match standardSubMode st with
     | QuickMode => false
     | DeepMode =>
         negb (forallb blank (split_lines (prosText st))
               && forallb blank (split_lines (consText st)))
     end.
Proof.
  unfold isLongInput, decisionData. cbv zeta.
  cbn [History.dilemma History.pros History.cons]. f_equal.
  destruct (standardSubMode st); [reflexivity|].
  rewrite !weighted_items_length.
  assert (F : forall ls, (List.length (filter (fun l => negb (blank l)) ls) =? 0)
                         = forallb blank ls).
  { induction ls as [|l ls IH]; [reflexivity|].
    cbn [filter forallb]. destruct (blank l); cbn; [exact IH | reflexivity]. }
  rewrite <- !F.
  destruct (List.length (filter _ (split_lines (prosText st)))),
           (List.length (filter _ (split_lines (consText st)))); reflexivity.
Qed.

(** X19.  The prompt [handleDecide] has [getDecisionRecommendation] send
    asks for a structured answer exactly when the dilemma is longer than
    200 characters or, in Deep mode, some line of the pros or of the cons
    is not blank; otherwise it asks for a concise one.  In Quick mode the
    text of the pros and cons fields plays no part. *)
Theorem request_is_structured_for_detailed_input (uuidv4 : nat -> string)
    (now : Z) (reply : JsError + DecisionResult) (st : State) :
  let detailed :=
    (200 <? String.length (dilemma st))
    || match standardSubMode st with
       | QuickMode => false
       | DeepMode =>
           negb (forallb blank (split_lines (prosText st))
                 && forallb blank (split_lines (consText st)))
       end in
  exists before after : string,
    fst (getDecisionRecommendation (decisionData uuidv4 now st) reply)
    = (before ++ (if detailed then structured_request else concise_request)
       ++ after)%string
    /\ before = (String line_feed "Dilemma: " ++ dilemma st ++ String line_feed ""
                 ++ bullet_list "User-provided Advantages:"
                      (History.pros (decisionData uuidv4 now st))
                 ++ String line_feed ""
                 ++ bullet_list "User-provided Disadvantages:"
                      (History.cons (decisionData uuidv4 now st))
                 ++ String line_feed "" ++ String line_feed ""
                 ++ "Task: Provide a decisive and empathetic recommendation."
                 ++ String line_feed "")%string.
Proof.
  cbv zeta. rewrite <- (isLongInput_value uuidv4 now st).
  eexists. eexists. split; [|reflexivity].
  cbn [getDecisionRecommendation fst]. unfold prompt. cbv zeta.
  cbn [History.dilemma].
  rewrite !TextFacts.append_assoc. reflexivity.
Qed.

End DecideFacts.
